(** * cut: selector lists and line projection

    A shallow embedding of [src/builtins/src/cut.c], the bash loadable
    builtin [cut], and the properties of its selector-list parser and of
    its byte-mode and field-mode projections.

    Conventions of the embedding.
    - A C [char] is an [ascii]; a buffer is a [list ascii].  A buffer
      filled by [getline] may hold NUL bytes; the string functions of the
      C library see only the bytes before the first NUL ([cstr]).
    - An [int] is a [Z]; where the code increments an [int], the
      wrap-around to 32 bits is written out ([to_int]).
    - [stdout] is the list of bytes written, in order.
    - A [FILE *] open for reading is the list of bytes still unread. *)

From Stdlib Require Import String Ascii ZArith List Bool Lia.
From Stdlib Require Import DecimalString DecimalN DecimalPos.
Import ListNotations.

Local Open Scope char_scope.
Local Open Scope Z_scope.

(** ** The C library functions the builtin calls *)

Module Libc.

Definition NUL : ascii := "000".
Definition LF : ascii := "010".
Definition TAB : ascii := "009".

Definition INT_MAX : Z := 2147483647.
Definition INT_MIN : Z := -2147483648.
Definition LONG_MAX : Z := 9223372036854775807.
Definition LONG_MIN : Z := -9223372036854775808.

(** Conversion of an integer value to [int]: reduction modulo 2^32 into
    the range [INT_MIN .. INT_MAX]. *)
Definition to_int (z : Z) : Z := (z + 2147483648) mod 4294967296 - 2147483648.

(** The bytes of a string literal. *)
Definition bytes (s : string) : list ascii := list_ascii_of_string s.

(** The string a buffer holds: its bytes before the first NUL. *)
Fixpoint cstr (buf : list ascii) : list ascii :=
  match buf with
  | [] => []
  | c :: rest => if (c =? NUL)%char then [] else c :: cstr rest
  end.

(** [strdup] copies the string of a buffer. *)
Definition strdup (s : list ascii) : list ascii := cstr s.

Definition strlen (s : list ascii) : Z := Z.of_nat (length (cstr s)).

(** [strchr s c]: offset of the first [c] in the string of [s], [None]
    for a null pointer.  The terminator belongs to the string, so
    looking for NUL finds it. *)
Fixpoint strchr (s : list ascii) (c : ascii) : option nat :=
  match s with
  | [] => if (c =? NUL)%char then Some O else None
  | x :: rest =>
      if (x =? c)%char then Some O
      else if (x =? NUL)%char then None
      else option_map S (strchr rest c)
  end.

(** [split_at n s]: the string cut at offset [n], the byte at [n] dropped
    (the code overwrites it with NUL and goes on from [n + 1]). *)
Definition split_at (n : nat) (s : list ascii) : list ascii * list ascii :=
  (firstn n s, skipn (S n) s).

Definition isspace (c : ascii) : bool :=
  let n := N_of_ascii c in ((n =? 32) || ((9 <=? n) && (n <=? 13)))%N.

Definition isdigit (c : ascii) : bool :=
  let n := N_of_ascii c in ((48 <=? n) && (n <=? 57))%N.

Definition digit_val (c : ascii) : Z := Z.of_N (N_of_ascii c) - 48.

Fixpoint skip_space (s : list ascii) : list ascii :=
  match s with
  | c :: rest => if isspace c then skip_space rest else s
  | [] => []
  end.

Fixpoint atoi_digits (s : list ascii) (acc : Z) : Z :=
  match s with
  | c :: rest =>
      if isdigit c then atoi_digits rest (10 * acc + digit_val c) else acc
  | [] => acc
  end.

(** [strtol s NULL 10]: optional white space, optional sign, the longest
    run of decimal digits; a value out of the range of [long] is clamped. *)
Definition strtol (s : list ascii) : Z :=
  let s1 := skip_space s in
  let '(neg, s2) :=
    match s1 with
    | "-" :: rest => (true, rest)
    | "+" :: rest => (false, rest)
    | _ => (false, s1)
    end in
  let v := atoi_digits s2 0 in
  Z.max LONG_MIN (Z.min LONG_MAX (if neg then - v else v)).

(** [atoi s] is [(int) strtol (s, NULL, 10)], as the GNU C library has
    it; the C standard says nothing of the result when the value is not
    that of an [int]. *)
Definition atoi (s : list ascii) : Z := to_int (strtol (cstr s)).

(** Membership in the delimiter set of [strtok], the bytes of the string
    [delim]. *)
Definition is_delim (delim : list ascii) (c : ascii) : bool :=
  existsb (Ascii.eqb c) delim.

(** [strspn]-like: drop the leading delimiters. *)
Fixpoint skip_delims (delim s : list ascii) : list ascii :=
  match s with
  | c :: rest => if is_delim delim c then skip_delims delim rest else s
  | [] => []
  end.

(** The token at the head of [s] and what follows the delimiter that
    ends it. *)
Fixpoint scan_token (delim s : list ascii) : list ascii * list ascii :=
  match s with
  | [] => ([], [])
  | c :: rest =>
      if is_delim delim c then ([], rest)
      else let '(t, r) := scan_token delim rest in (c :: t, r)
  end.

(** One call of [strtok_r] on the string [s] (its bytes before the
    terminator): [None] for a null pointer, else the token and the saved
    position. *)
Definition strtok_r (delim s : list ascii) : option (list ascii * list ascii) :=
  match skip_delims delim s with
  | [] => None
  | s1 => Some (scan_token delim s1)
  end.

(** The tokens the successive calls of [strtok_r] return, until the null
    pointer ([tokens_strtok_r] below). *)
Fixpoint tokens (delim s : list ascii) : list (list ascii) :=
  match s with
  | [] => []
  | c :: rest =>
      if is_delim delim c then tokens delim rest
      else match rest with
           | [] => [[c]]
           | c' :: _ =>
               if is_delim delim c' then [c] :: tokens delim rest
               else match tokens delim rest with
                    | t :: ts => (c :: t) :: ts
                    | [] => [[c]]
                    end
           end
  end.

(** One call of [getline]: [None] for -1 (end of file, nothing read),
    else the line, its newline included when there is one, and the rest
    of the stream. *)
Fixpoint getline (fp : list ascii) : option (list ascii * list ascii) :=
  match fp with
  | [] => None
  | c :: rest =>
      if (c =? LF)%char then Some ([c], rest)
      else match getline rest with
           | None => Some ([c], [])
           | Some (l, r) => Some (c :: l, r)
           end
  end.

(** The lines the successive calls of [getline] return, until -1
    ([read_lines_getline] below). *)
Fixpoint read_lines (fp : list ascii) : list (list ascii) :=
  match fp with
  | [] => []
  | c :: rest =>
      if (c =? LF)%char then [c] :: read_lines rest
      else match read_lines rest with
           | [] => [[c]]
           | l :: ls => (c :: l) :: ls
           end
  end.

End Libc.

(** ** The builtin *)

Module Cut.
Import Libc.

(** [struct range]; the [next] pointer makes a list ([Range *] is a
    [list Range], the null pointer is [[]]).  [end] is [end_] here. *)
Record Range : Type := { start : Z; end_ : Z }.

(** The body of the loop of [parse_ranges]: the range of one token. *)
Definition parse_token (token : list ascii) : Range :=
  match strchr token "-" with
  | None => {| start := atoi token; end_ := atoi token |}
  | Some O => {| start := 1; end_ := atoi (skipn 1 token) |}
  | Some dash =>
      let '(before, after) := split_at dash token in
      match after with
      | [] => {| start := atoi before; end_ := INT_MAX |}
      | _ => {| start := atoi before; end_ := atoi after |}
      end
  end.

(** [parse_ranges]: one range per token of [strtok (str_copy, ",")], in
    the order of the list ([malloc] is taken to succeed). *)
Definition parse_ranges (list_str : list ascii) : list Range :=
  map parse_token (tokens [","] (strdup list_str)).

Fixpoint in_range (ranges : list Range) (pos : Z) : bool :=
  match ranges with
  | [] => false
  | r :: next =>
      if (start r <=? pos) && (pos <=? end_ r) then true
      else in_range next pos
  end.

(** The [for] loop of [cut_bytes] over the bytes of one line, from
    position [pos]: the bytes it writes. *)
Fixpoint cut_bytes_scan (ranges : list Range) (line : list ascii) (pos : Z)
  : list ascii :=
  match line with
  | [] => []
  | c :: rest =>
      if (c =? LF)%char || (c =? NUL)%char then []
      else (if in_range ranges pos then [c] else [])
           ++ cut_bytes_scan ranges rest (to_int (pos + 1))
  end.

(** The body of the [while] loop of [cut_bytes]: what one line writes. *)
Definition cut_bytes_line (ranges : list Range) (line_delim : ascii)
  (line : list ascii) : list ascii :=
  cut_bytes_scan ranges line 1 ++ [line_delim].

(** [cut_bytes]: what the stream [fp] writes to [stdout]. *)
Definition cut_bytes (fp : list ascii) (ranges : list Range)
  (line_delim : ascii) : list ascii :=
  flat_map (cut_bytes_line ranges line_delim) (read_lines fp).

(** [if (read > 0 && line[read - 1] == '\n') { line[read - 1] = '\0'; read--; }] *)
Definition chomp (line : list ascii) : list ascii :=
  match rev line with
  | c :: front => if (c =? LF)%char then rev front else line
  | [] => line
  end.

(** [delim[0]]: the first byte of the string, its terminator when the
    string is empty. *)
Definition first_byte (delim : list ascii) : ascii := hd NUL delim.

(** The [while (token)] loop of [cut_fields] over the tokens still to
    come, from field number [field]: the bytes it writes and the final
    [first_output]. *)
Fixpoint cut_fields_scan (ranges : list Range) (delim : list ascii)
  (toks : list (list ascii)) (field : Z) (first_output : bool)
  : list ascii * bool :=
  match toks with
  | [] => ([], first_output)
  | token :: next =>
      if in_range ranges field then
        let '(out, fo) :=
          cut_fields_scan ranges delim next (to_int (field + 1)) false in
        ((if first_output then [] else cstr delim) ++ token ++ out, fo)
      else cut_fields_scan ranges delim next (to_int (field + 1)) first_output
  end.

(** The body of the [while] loop of [cut_fields]: what one line writes. *)
Definition cut_fields_line (ranges : list Range) (delim : list ascii)
  (suppress_no_delim : bool) (line_delim : ascii) (line : list ascii)
  : list ascii :=
  let line := chomp line in
  match strchr line (first_byte delim) with
  | None =>
      if suppress_no_delim then [] else cstr line ++ [line_delim]
  | Some _ =>
      let line_copy := strdup line in
      let '(out, first_output) :=
        cut_fields_scan ranges delim (tokens (cstr delim) line_copy) 1 true in
      out ++ (if first_output then [] else [line_delim])
  end.

(** [cut_fields]: what the stream [fp] writes to [stdout]. *)
Definition cut_fields (fp : list ascii) (ranges : list Range)
  (delim : list ascii) (suppress_no_delim : bool) (line_delim : ascii)
  : list ascii :=
  flat_map (cut_fields_line ranges delim suppress_no_delim line_delim)
           (read_lines fp).

(** Exit statuses of a builtin, by the names bash's headers give them. *)
Inductive exit_status : Type :=
  | EXECUTION_SUCCESS
  | EXECUTION_FAILURE
  | EX_USAGE.

(** What [cut_builtin] itself writes to the error stream: one constructor
    per call of [builtin_error] or [builtin_usage] in [cut.c].  What
    [internal_getopt] writes on its own account, before it returns a value
    the loop does not know, is not recorded. *)
Inductive diagnostic : Type :=
  | only_one_type_of_list
  | delimiter_not_single_character
  | no_list_specified
  | invalid_range_list
  | usage
  | cannot_open (filename : list ascii).

(** The local variables of [cut_builtin] the option loop sets. *)
Record options : Type := {
  mode : Z;
  range_list : list ascii;
  delimiter : list ascii;
  suppress_no_delim : bool;
  line_delim : ascii
}.

Definition initial_options : options :=
  {| mode := 0; range_list := []; delimiter := [TAB];
     suppress_no_delim := false; line_delim := LF |}.

(** The code of a character constant. *)
Definition chr (c : ascii) : Z := Z.of_N (N_of_ascii c).

(** One turn of the option loop: [internal_getopt] has returned [opt]
    and set [list_optarg].  [inl] is a return with [EX_USAGE] after the
    diagnostic. *)
Definition option_step (o : options) (ev : Z * list ascii)
  : diagnostic + options :=
  let '(opt, list_optarg) := ev in
  if (opt =? chr "b") || (opt =? chr "c") then
    if negb (mode o =? 0) then inl only_one_type_of_list
    else inr {| mode := opt; range_list := list_optarg;
                delimiter := delimiter o;
                suppress_no_delim := suppress_no_delim o;
                line_delim := line_delim o |}
  else if opt =? chr "d" then
    if negb (strlen list_optarg =? 1) then inl delimiter_not_single_character
    else inr {| mode := mode o; range_list := range_list o;
                delimiter := list_optarg;
                suppress_no_delim := suppress_no_delim o;
                line_delim := line_delim o |}
  else if opt =? chr "f" then
    if negb (mode o =? 0) then inl only_one_type_of_list
    else inr {| mode := chr "f"; range_list := list_optarg;
                delimiter := delimiter o;
                suppress_no_delim := suppress_no_delim o;
                line_delim := line_delim o |}
  else if opt =? chr "s" then
    inr {| mode := mode o; range_list := range_list o;
           delimiter := delimiter o;
           suppress_no_delim := true;
           line_delim := line_delim o |}
  else if opt =? chr "z" then
    inr {| mode := mode o; range_list := range_list o;
           delimiter := delimiter o;
           suppress_no_delim := suppress_no_delim o;
           line_delim := NUL |}
  else inl usage.

(** The option loop over the values [internal_getopt] returns before
    -1, each with the [list_optarg] it sets. *)
Fixpoint option_loop (evs : list (Z * list ascii)) (o : options)
  : diagnostic + options :=
  match evs with
  | [] => inr o
  | ev :: rest =>
      match option_step o ev with
      | inl d => inl d
      | inr o' => option_loop rest o'
      end
  end.

(** What a run of the builtin leaves behind. *)
Record outcome : Type := {
  status : exit_status;
  stdout : list ascii;
  stderr : list diagnostic;
  stdin : list ascii
}.

(** [mode == 'f' ? cut_fields (...) : cut_bytes (...)] on one stream. *)
Definition cut_stream (o : options) (ranges : list Range) (fp : list ascii)
  : list ascii :=
  if mode o =? chr "f"
  then cut_fields fp ranges (delimiter o) (suppress_no_delim o) (line_delim o)
  else cut_bytes fp ranges (line_delim o).

(** [strcmp (filename, "-") == 0] *)
Definition is_dash (filename : list ascii) : bool :=
  match cstr filename with
  | ["-"] => true
  | _ => false
  end.

(** The [while (list)] loop over the file operands.  [fopen] gives the
    bytes of a file, [None] when it cannot be opened; a stream is read
    to its end, so [stdin] is empty once it has been a source. *)
Fixpoint cut_files (fopen : list ascii -> option (list ascii))
  (o : options) (ranges : list Range) (list : list (list ascii))
  (st : outcome) : outcome :=
  match list with
  | [] => st
  | filename :: next =>
      if is_dash filename then
        cut_files fopen o ranges next
          {| status := status st;
             stdout := stdout st ++ cut_stream o ranges (stdin st);
             stderr := stderr st;
             stdin := [] |}
      else
        match fopen filename with
        | None =>
            cut_files fopen o ranges next
              {| status := EXECUTION_FAILURE;
                 stdout := stdout st;
                 stderr := stderr st ++ [cannot_open filename];
                 stdin := stdin st |}
        | Some fp =>
            cut_files fopen o ranges next
              {| status := status st;
                 stdout := stdout st ++ cut_stream o ranges fp;
                 stderr := stderr st;
                 stdin := stdin st |}
        end
  end.

Definition usage_error (d : diagnostic) (input : list ascii) : outcome :=
  {| status := EX_USAGE; stdout := []; stderr := [d]; stdin := input |}.

(** [cut_builtin]: [evs] is what the option loop gets from
    [internal_getopt], [loptend] the operands left after the options,
    [input] the bytes waiting on standard input. *)
Definition cut_builtin (fopen : list ascii -> option (list ascii))
  (input : list ascii) (evs : list (Z * list ascii))
  (loptend : list (list ascii)) : outcome :=
  match option_loop evs initial_options with
  | inl d => usage_error d input
  | inr o =>
      if mode o =? 0 then usage_error no_list_specified input
      else
        match parse_ranges (range_list o) with
        | [] => usage_error invalid_range_list input
        | ranges =>
            match loptend with
            | [] =>
                {| status := EXECUTION_SUCCESS;
                   stdout := cut_stream o ranges input;
                   stderr := [];
                   stdin := [] |}
            | _ =>
                cut_files fopen o ranges loptend
                  {| status := EXECUTION_SUCCESS; stdout := [];
                     stderr := []; stdin := input |}
            end
        end
  end.

End Cut.

(** ** Notions the properties are stated with *)

Module Notions.
Import Libc Cut.

(** A line [getline] returns: no newline but, possibly, at its end. *)
Definition is_line (l : list ascii) : Prop :=
  exists content, ~ In LF content /\ (l = content ++ [LF] \/ l = content).

(** The fields the code numbers in a line [getline] returned, for the
    delimiter [d]: the tokens of the field loop. *)
Definition fields (d : ascii) (line : list ascii) : list (list ascii) :=
  tokens [d] (strdup (chomp line)).

(** The fields as the specification words them: the line split at every
    occurrence of the delimiter, empty fields kept. *)
Fixpoint split_every (d : ascii) (s : list ascii) : list (list ascii) :=
  match s with
  | [] => [[]]
  | c :: rest =>
      if (c =? d)%char then [] :: split_every d rest
      else match split_every d rest with
           | f :: fs => (c :: f) :: fs
           | [] => [[c]]
           end
  end.

Definition not_empty (f : list ascii) : bool :=
  match f with
  | [] => false
  | _ :: _ => true
  end.

(** A body: what an output line holds before its terminator. *)
Definition is_body (b : list ascii) : Prop := ~ In LF b /\ ~ In NUL b.

(** The output made of the bodies, each followed by the terminator. *)
Definition terminated (line_delim : ascii) (bodies : list (list ascii))
  : list ascii :=
  flat_map (fun b => b ++ [line_delim]) bodies.

(** The characters of a decimal numeral. *)
Definition uchars (d : Decimal.uint) : list ascii :=
  list_ascii_of_string (NilEmpty.string_of_uint d).

(** The decimal numeral of a number, as the standard library prints it. *)
Definition decimal (n : N) : list ascii := uchars (N.to_uint n).

(** The four shapes of a token of a selector list: [N], [N-], [-M] and
    [N-M]. *)
Inductive selector_token : Type :=
  | Single (n : N)
  | From (n : N)
  | UpTo (m : N)
  | Span (n m : N).

Definition render (t : selector_token) : list ascii :=
  match t with
  | Single n => decimal n
  | From n => decimal n ++ ["-"]
  | UpTo m => "-" :: decimal m
  | Span n m => decimal n ++ "-" :: decimal m
  end.

Fixpoint join_commas (toks : list (list ascii)) : list ascii :=
  match toks with
  | [] => []
  | [t] => t
  | t :: rest => t ++ "," :: join_commas rest
  end.

(** The selector list of the tokens [ts]. *)
Definition selector (ts : list selector_token) : list ascii :=
  join_commas (map render ts).

(** The interval a token denotes: a first position and a last one, [None]
    when there is no bound. *)
Definition denotes (t : selector_token) : Z * option Z :=
  match t with
  | Single n => (Z.of_N n, Some (Z.of_N n))
  | From n => (Z.of_N n, None)
  | UpTo m => (1, Some (Z.of_N m))
  | Span n m => (Z.of_N n, Some (Z.of_N m))
  end.

Definition lies_in (p : Z) (i : Z * option Z) : Prop :=
  fst i <= p /\ match snd i with Some hi => p <= hi | None => True end.

(** The range that stores an interval: no bound is [INT_MAX]. *)
Definition stored (i : Z * option Z) : Range :=
  {| start := fst i;
     end_ := match snd i with Some hi => hi | None => INT_MAX end |}.

(** The numbers of a token are values of an [int]. *)
Definition fits_int (t : selector_token) : Prop :=
  match t with
  | Single n | From n | UpTo n => Z.of_N n <= INT_MAX
  | Span n m => Z.of_N n <= INT_MAX /\ Z.of_N m <= INT_MAX
  end.

(** The value of a decimal numeral read from the left with the
    accumulator [acc]. *)
Fixpoint uvalue (d : Decimal.uint) (acc : Z) : Z :=
  match d with
  | Decimal.Nil => acc
  | Decimal.D0 d => uvalue d (10 * acc + 0)
  | Decimal.D1 d => uvalue d (10 * acc + 1)
  | Decimal.D2 d => uvalue d (10 * acc + 2)
  | Decimal.D3 d => uvalue d (10 * acc + 3)
  | Decimal.D4 d => uvalue d (10 * acc + 4)
  | Decimal.D5 d => uvalue d (10 * acc + 5)
  | Decimal.D6 d => uvalue d (10 * acc + 6)
  | Decimal.D7 d => uvalue d (10 * acc + 7)
  | Decimal.D8 d => uvalue d (10 * acc + 8)
  | Decimal.D9 d => uvalue d (10 * acc + 9)
  end.

(** The option is one of [-b], [-c] and [-f]. *)
Definition is_list_option (ev : Z * list ascii) : bool :=
  (fst ev =? chr "b") || (fst ev =? chr "c") || (fst ev =? chr "f").

(** The option is [-d] with an argument that is not one character. *)
Definition is_bad_delimiter (ev : Z * list ascii) : Prop :=
  fst ev = chr "d" /\ strlen (snd ev) <> 1.

(** The options with another line terminator. *)
Definition with_line_delim (ld : ascii) (o : options) : options :=
  {| mode := mode o; range_list := range_list o; delimiter := delimiter o;
     suppress_no_delim := suppress_no_delim o; line_delim := ld |}.

(** The end of the option loop with another line terminator. *)
Definition lift_line_delim (ld : ascii) (r : diagnostic + options)
  : diagnostic + options :=
  match r with
  | inl d => inl d
  | inr o => inr (with_line_delim ld o)
  end.

(** The operand names a file that cannot be opened. *)
Definition unopenable (fopen : list ascii -> option (list ascii))
  (filename : list ascii) : bool :=
  negb (is_dash filename) &&
  match fopen filename with None => true | Some _ => false end.

(** What [internal_getopt] returns for the option [-c arg]. *)
Definition opt (c : ascii) (arg : string) : Z * list ascii :=
  (chr c, bytes arg).

(** Two runs that differ in the terminator only: the same status, the
    same diagnostics, the same input left, and the same bodies written,
    each followed by the terminator of its run. *)
Definition same_but_terminator (ld1 ld2 : ascii) (r1 r2 : outcome) : Prop :=
  status r1 = status r2 /\
  stderr r1 = stderr r2 /\
  stdin r1 = stdin r2 /\
  exists bodies,
    Forall is_body bodies /\
    stdout r1 = terminated ld1 bodies /\
    stdout r2 = terminated ld2 bodies.

(** What a named file writes: nothing when it cannot be opened. *)
Definition source_output (fopen : list ascii -> option (list ascii))
  (o : options) (ranges : list Range) (filename : list ascii) : list ascii :=
  match fopen filename with
  | Some fp => cut_stream o ranges fp
  | None => []
  end.

(** Only the file [name] can be opened; it holds [content]. *)
Definition one_file (name content : list ascii)
  : list ascii -> option (list ascii) :=
  fun filename =>
    if list_eq_dec ascii_dec filename name then Some content else None.

(** No file can be opened. *)
Definition no_file : list ascii -> option (list ascii) := fun _ => None.

End Notions.

(** ** Notions for the further properties *)

Module Further.
Import Libc Cut Notions.

(** The units of a line numbered from [pos] on. *)
Fixpoint number_from {A : Type} (pos : Z) (units : list A) : list (Z * A) :=
  match units with
  | [] => []
  | u :: rest => (pos, u) :: number_from (pos + 1) rest
  end.

(** The units whose number, counted from 1, is in one of the ranges. *)
Definition selected {A : Type} (ranges : list Range) (units : list A)
  : list A :=
  map snd (filter (fun pu => in_range ranges (fst pu)) (number_from 1 units)).

(** The bytes of a line the byte loop sees: those before the first
    newline or NUL byte. *)
Fixpoint visible (line : list ascii) : list ascii :=
  match line with
  | [] => []
  | c :: rest =>
      if (c =? LF)%char || (c =? NUL)%char then [] else c :: visible rest
  end.

(** Fields joined by the delimiter. *)
Fixpoint join_with (d : ascii) (fs : list (list ascii)) : list ascii :=
  match fs with
  | [] => []
  | [f] => f
  | f :: rest => f ++ d :: join_with d rest
  end.

(** A field that can stand between delimiters and be found again. *)
Definition is_field (d : ascii) (f : list ascii) : Prop :=
  f <> [] /\ ~ In d f /\ ~ In NUL f /\ ~ In LF f.

(** The line, as the field loop sees it, holds the delimiter. *)
Definition has_delimiter (d : ascii) (line : list ascii) : bool :=
  match strchr (chomp line) d with
  | Some _ => true
  | None => false
  end.

(** The option is one the option string of [cut] knows. *)
Definition is_known_option (ev : Z * list ascii) : bool :=
  (fst ev =? chr "b") || (fst ev =? chr "c") || (fst ev =? chr "d") ||
  (fst ev =? chr "f") || (fst ev =? chr "s") || (fst ev =? chr "z").

(** [-c] read as [-b]. *)
Definition b_for_c (ev : Z * list ascii) : Z * list ascii :=
  if fst ev =? chr "c" then (chr "b", snd ev) else ev.

(** The argument of the last [-d], [default] when there is none. *)
Definition last_delimiter (evs : list (Z * list ascii))
  (default : list ascii) : list ascii :=
  fold_left (fun acc ev => if fst ev =? chr "d" then snd ev else acc)
            evs default.

(** The argument of the first of [-b], [-c] and [-f]. *)
Fixpoint list_argument (evs : list (Z * list ascii)) : list ascii :=
  match evs with
  | [] => []
  | ev :: rest => if is_list_option ev then snd ev else list_argument rest
  end.

(** The options a run accepts: each one known, one list option, every
    delimiter one character, a selector list with a token in it. *)
Definition accepted (evs : list (Z * list ascii)) : Prop :=
  Forall (fun ev => is_known_option ev = true) evs /\
  length (filter is_list_option evs) = 1%nat /\
  ~ Exists is_bad_delimiter evs /\
  parse_ranges (list_argument evs) <> [].

(** What [cut_builtin] does once the option loop has ended with the
    options [o]. *)
Definition cut_run (fopen : list ascii -> option (list ascii))
  (input : list ascii) (o : options) (loptend : list (list ascii))
  : outcome :=
  if mode o =? 0 then usage_error no_list_specified input
  else
    match parse_ranges (range_list o) with
    | [] => usage_error invalid_range_list input
    | ranges =>
        match loptend with
        | [] =>
            {| status := EXECUTION_SUCCESS;
               stdout := cut_stream o ranges input;
               stderr := [];
               stdin := [] |}
        | _ =>
            cut_files fopen o ranges loptend
              {| status := EXECUTION_SUCCESS; stdout := [];
                 stderr := []; stdin := input |}
        end
    end.

(** The options with [-s] set. *)
Definition with_suppress (o : options) : options :=
  {| mode := mode o; range_list := range_list o; delimiter := delimiter o;
     suppress_no_delim := true; line_delim := line_delim o |}.

(** The options with another [mode]. *)
Definition with_mode (m : Z) (o : options) : options :=
  {| mode := m; range_list := range_list o; delimiter := delimiter o;
     suppress_no_delim := suppress_no_delim o; line_delim := line_delim o |}.

(** The end of the option loop, seen through a change of the options. *)
Definition lift_options (f : options -> options) (r : diagnostic + options)
  : diagnostic + options :=
  match r with
  | inl d => inl d
  | inr o => inr (f o)
  end.

(** The options read from the events with [-b] for [-c], beside those
    read from the events as they are. *)
Definition related (ob o : options) : Prop :=
  ob = o \/ (mode o = chr "c" /\ ob = with_mode (chr "b") o).

(** A byte of the input, of a file among the operands, or the
    terminator. *)
Definition known_byte (fopen : list ascii -> option (list ascii))
  (o : options) (input : list ascii) (operands : list (list ascii))
  (c : ascii) : Prop :=
  In c input \/
  (exists f fp, In f operands /\ fopen f = Some fp /\ In c fp) \/
  c = line_delim o.

(** The operand [-]. *)
Definition dash : list ascii := ["-"].

End Further.

Import Libc Cut Notions Further.

(** ** The iterators are the successive calls *)

Section Iterators.

Lemma read_lines_getline (fp : list ascii) :
  read_lines fp =
  match getline fp with
  | None => []
  | Some (l, rest) => l :: read_lines rest
  end.
Proof.
  induction fp as [|c rest IH]; simpl; [reflexivity|].
  destruct (c =? LF)%char; [reflexivity|].
  rewrite IH.
  destruct (getline rest) as [[l r]|]; reflexivity.
Qed.

Lemma tokens_head (delim : list ascii) (rest : list ascii) :
  forall c, is_delim delim c = false ->
  tokens delim (c :: rest) =
  (c :: fst (scan_token delim rest)) :: tokens delim (snd (scan_token delim rest)).
Proof.
  induction rest as [|c' rest' IH]; intros c Hc.
  - simpl. rewrite Hc. reflexivity.
  - change (tokens delim (c :: c' :: rest')) with
      (if is_delim delim c then tokens delim (c' :: rest')
       else if is_delim delim c' then [c] :: tokens delim (c' :: rest')
       else match tokens delim (c' :: rest') with
            | t :: ts => (c :: t) :: ts
            | [] => [[c]]
            end).
    rewrite Hc.
    destruct (is_delim delim c') eqn:Hc'.
    + simpl. rewrite Hc'. reflexivity.
    + rewrite (IH c' Hc'). simpl. rewrite Hc'.
      destruct (scan_token delim rest') as [t r]. reflexivity.
Qed.

Lemma tokens_skip (delim : list ascii) (c : ascii) (rest : list ascii) :
  is_delim delim c = true -> tokens delim (c :: rest) = tokens delim rest.
Proof. intros Hc. simpl. rewrite Hc. reflexivity. Qed.

Lemma tokens_strtok_r (delim s : list ascii) :
  tokens delim s =
  match strtok_r delim s with
  | None => []
  | Some (t, rest) => t :: tokens delim rest
  end.
Proof.
  induction s as [|c rest IH]; [reflexivity|].
  destruct (is_delim delim c) eqn:Hc.
  - rewrite tokens_skip by assumption. rewrite IH.
    unfold strtok_r. simpl. rewrite Hc. reflexivity.
  - rewrite tokens_head by assumption.
    unfold strtok_r. simpl. rewrite Hc. simpl. rewrite Hc.
    destruct (scan_token delim rest) as [t r]. reflexivity.
Qed.

End Iterators.

(** ** Strings, buffers and [int] *)

Section Buffers.

Lemma to_int_small (z : Z) : INT_MIN <= z <= INT_MAX -> to_int z = z.
Proof.
  unfold INT_MIN, INT_MAX, to_int. intros H.
  rewrite Z.mod_small; lia.
Qed.

Lemma cstr_not_NUL (s : list ascii) : ~ In NUL (cstr s).
Proof.
  induction s as [|c rest IH]; simpl; [tauto|].
  destruct (Ascii.eqb_spec c NUL) as [->|Hc]; simpl; [tauto|].
  intros [H|H]; [exact (Hc H) | exact (IH H)].
Qed.

Lemma cstr_incl (s : list ascii) (c : ascii) : In c (cstr s) -> In c s.
Proof.
  induction s as [|x rest IH]; simpl; [tauto|].
  destruct (x =? NUL)%char; simpl; [tauto|].
  intros [H|H]; [left; exact H | right; exact (IH H)].
Qed.

Lemma cstr_id (s : list ascii) : ~ In NUL s -> cstr s = s.
Proof.
  induction s as [|c rest IH]; simpl; [reflexivity|]. intros H.
  destruct (Ascii.eqb_spec c NUL) as [->|Hc]; [tauto|].
  f_equal. apply IH. tauto.
Qed.

Lemma strchr_None (s : list ascii) (c : ascii) :
  c <> NUL -> (strchr s c = None <-> ~ In c (cstr s)).
Proof.
  intros Hc. induction s as [|x rest IH]; simpl.
  - destruct (Ascii.eqb_spec c NUL); [contradiction|]. tauto.
  - destruct (Ascii.eqb_spec x c) as [->|Hx].
    + destruct (Ascii.eqb_spec c NUL); [contradiction|].
      simpl. split; [discriminate | tauto].
    + destruct (Ascii.eqb_spec x NUL) as [->|Hn]; simpl; [tauto|].
      destruct (strchr rest c); simpl.
      * split; [discriminate|]. intros H. exfalso. apply H. right.
        destruct IH as [_ IH].
        destruct (in_dec ascii_dec c (cstr rest)) as [Hin|Hout];
          [exact Hin | discriminate (IH Hout)].
      * split; [|reflexivity]. intros _ [H|H]; [exact (Hx H)|].
        destruct IH as [IH _]. exact (IH eq_refl H).
Qed.

Lemma chomp_newline (content : list ascii) : chomp (content ++ [LF]) = content.
Proof.
  unfold chomp. rewrite rev_app_distr. simpl. apply rev_involutive.
Qed.

Lemma chomp_unterminated (content : list ascii) :
  ~ In LF content -> chomp content = content.
Proof.
  unfold chomp. intros H.
  destruct (rev content) as [|c front] eqn:E; [reflexivity|].
  destruct (Ascii.eqb_spec c LF) as [->|Hc]; [|reflexivity].
  exfalso. apply H. apply in_rev. rewrite E. now left.
Qed.

Lemma is_line_chomp (l : list ascii) : is_line l -> ~ In LF (chomp l).
Proof.
  intros [content [H [-> | ->]]].
  - now rewrite chomp_newline.
  - now rewrite chomp_unterminated.
Qed.

Lemma read_lines_are_lines (fp : list ascii) : Forall is_line (read_lines fp).
Proof.
  induction fp as [|c rest IH]; simpl; [constructor|].
  destruct (Ascii.eqb_spec c LF) as [->|Hc].
  - constructor; [|exact IH]. exists []. split; [tauto | now left].
  - destruct (read_lines rest) as [|l ls].
    + constructor; [|constructor]. exists [c]. split; [|now right].
      simpl. intros [H|[]]. now apply Hc.
    + inversion IH as [|? ? [content [Hn Hl]] Hls]; subst.
      constructor; [|exact Hls]. exists (c :: content). split.
      * simpl. intros [H|H]; [now apply Hc | now apply Hn].
      * destruct Hl as [-> | ->]; [now left | now right].
Qed.

End Buffers.

(** ** Byte mode *)

Section ByteMode.

Variable ranges : list Range.

Lemma cut_bytes_scan_stops (pre post : list ascii) (c : ascii) :
  c = NUL \/ c = LF ->
  forall pos,
    cut_bytes_scan ranges (pre ++ c :: post) pos = cut_bytes_scan ranges pre pos.
Proof.
  intros Hc. induction pre as [|x rest IH]; intros pos; simpl.
  - destruct Hc as [-> | ->]; reflexivity.
  - destruct ((x =? LF)%char || (x =? NUL)%char); [reflexivity|].
    now rewrite IH.
Qed.

Lemma cut_bytes_scan_sound (line : list ascii) (c : ascii) :
  forall pos, In c (cut_bytes_scan ranges line pos) ->
              In c line /\ c <> LF /\ c <> NUL.
Proof.
  induction line as [|x rest IH]; intros pos; simpl; [tauto|].
  destruct (Ascii.eqb_spec x LF) as [->|Hl]; simpl; [tauto|].
  destruct (Ascii.eqb_spec x NUL) as [->|Hn]; simpl; [tauto|].
  intros H. apply in_app_or in H. destruct H as [H|H].
  - destruct (in_range ranges pos); simpl in H; [|tauto].
    destruct H as [<-|[]]. tauto.
  - apply IH in H. tauto.
Qed.

Lemma cut_bytes_scan_nothing (line : list ascii) :
  forall pos,
    1 <= pos ->
    pos + Z.of_nat (length line) <= INT_MAX + 1 ->
    (forall k, pos <= k < pos + Z.of_nat (length line) ->
               in_range ranges k = false) ->
    cut_bytes_scan ranges line pos = [].
Proof.
  induction line as [|x rest IH]; intros pos Hlo Hhi Hno; [reflexivity|].
  cbn [length] in Hhi, Hno. rewrite Nat2Z.inj_succ in Hhi, Hno.
  cbn [cut_bytes_scan].
  destruct ((x =? LF)%char || (x =? NUL)%char); [reflexivity|].
  rewrite Hno by lia. cbn [app].
  destruct rest as [|x' rest']; [reflexivity|].
  cbn [length] in Hhi, Hno. rewrite Nat2Z.inj_succ in Hhi, Hno.
  rewrite to_int_small by (unfold INT_MIN, INT_MAX in *; lia).
  apply IH; cbn [length]; rewrite ?Nat2Z.inj_succ; try lia.
  intros k Hk. apply Hno. lia.
Qed.

End ByteMode.

Lemma parse_ranges_full : parse_ranges (bytes "1-") = [{| start := 1; end_ := INT_MAX |}].
Proof. reflexivity. Qed.

Lemma cut_bytes_scan_full (content : list ascii) :
  Forall (fun c => c <> LF /\ c <> NUL) content ->
  forall pos, 1 <= pos -> pos + Z.of_nat (length content) <= INT_MAX + 1 ->
  cut_bytes_scan [{| start := 1; end_ := INT_MAX |}] content pos = content.
Proof.
  induction 1 as [|c rest [Hl Hn] Hrest IH]; intros pos Hlo Hhi; [reflexivity|].
  cbn [cut_bytes_scan in_range start end_].
  destruct (Ascii.eqb_spec c LF); [contradiction|].
  destruct (Ascii.eqb_spec c NUL); [contradiction|].
  cbn [length] in Hhi. rewrite Nat2Z.inj_succ in Hhi.
  replace (1 <=? pos) with true by (symmetry; apply Z.leb_le; lia).
  replace (pos <=? INT_MAX) with true by (symmetry; apply Z.leb_le; lia).
  cbn [orb andb app]. f_equal.
  destruct rest as [|c' rest']; [reflexivity|].
  cbn [length] in Hhi. rewrite Nat2Z.inj_succ in Hhi.
  rewrite to_int_small by (unfold INT_MIN, INT_MAX in *; lia).
  apply IH; cbn [length]; rewrite ?Nat2Z.inj_succ; lia.
Qed.

(** C10.  In byte mode the scan of a line stops at the first NUL byte, and
    at the newline: the line writes what its bytes before that byte write,
    whatever follows and whatever the ranges select, and then the
    terminator.  So with the selector [1-], which selects position 4, the
    line [ab NUL cd] writes [ab] and the terminator. *)
Theorem byte_mode_stops_at_NUL :
  (forall ranges line_delim pre post,
      cut_bytes_line ranges line_delim (pre ++ NUL :: post)
      = cut_bytes_scan ranges pre 1 ++ [line_delim]) /\
  (forall ranges line_delim pre post,
      cut_bytes_line ranges line_delim (pre ++ LF :: post)
      = cut_bytes_scan ranges pre 1 ++ [line_delim]) /\
  (forall ranges line_delim line c,
      In c (removelast (cut_bytes_line ranges line_delim line)) -> c <> NUL) /\
  in_range (parse_ranges (bytes "1-")) 4 = true /\
  cut_bytes (bytes "ab" ++ NUL :: bytes "cd" ++ [LF])
            (parse_ranges (bytes "1-")) LF
  = bytes "ab" ++ [LF].
Proof.
  split; [|split; [|split; [|split]]].
  - intros. unfold cut_bytes_line. rewrite cut_bytes_scan_stops; auto.
  - intros. unfold cut_bytes_line. rewrite cut_bytes_scan_stops; auto.
  - intros ranges line_delim line c. unfold cut_bytes_line.
    rewrite removelast_last. intros H.
    apply cut_bytes_scan_sound in H. tauto.
  - reflexivity.
  - reflexivity.
Qed.

(** C5, as the code has it.  In byte mode the selector [1-] writes a line
    back as it is, its newline replaced by the terminator, when the line
    holds no NUL byte and is no longer than [INT_MAX] bytes, the range of
    the [int] that counts positions. *)
Theorem byte_mode_full_range_identity (line_delim : ascii) (line : list ascii) :
  is_line line ->
  ~ In NUL line ->
  Z.of_nat (length line) <= INT_MAX ->
  cut_bytes_line (parse_ranges (bytes "1-")) line_delim line
  = chomp line ++ [line_delim].
Proof.
  intros [content [Hlf Hline]] Hnul Hlen.
  rewrite parse_ranges_full. unfold cut_bytes_line. f_equal.
  assert (Hc : Forall (fun c => c <> LF /\ c <> NUL) content).
  { apply Forall_forall. intros c Hin. split; intros ->; [tauto|].
    apply Hnul. destruct Hline as [-> | ->]; [apply in_or_app|]; tauto. }
  assert (Hl : Z.of_nat (length content) <= INT_MAX).
  { destruct Hline as [-> | ->]; [|exact Hlen].
    rewrite length_app in Hlen. lia. }
  destruct Hline as [-> | ->].
  - rewrite chomp_newline, cut_bytes_scan_stops by auto.
    apply cut_bytes_scan_full; [exact Hc | lia | lia].
  - rewrite chomp_unterminated by exact Hlf.
    apply cut_bytes_scan_full; [exact Hc | lia | lia].
Qed.

Lemma byte_mode_full_range_identity_witness :
  is_line (bytes "hello" ++ [LF]) /\
  ~ In NUL (bytes "hello" ++ [LF]) /\
  Z.of_nat (length (bytes "hello" ++ [LF])) <= INT_MAX /\
  cut_bytes_line (parse_ranges (bytes "1-")) LF (bytes "hello" ++ [LF])
  = chomp (bytes "hello" ++ [LF]) ++ [LF].
Proof.
  assert (H1 : is_line (bytes "hello" ++ [LF])).
  { exists (bytes "hello"). split; [|now left].
    simpl. intros H. repeat (destruct H as [H|H]; [discriminate H|]). exact H. }
  assert (H2 : ~ In NUL (bytes "hello" ++ [LF])).
  { simpl. intros H. repeat (destruct H as [H|H]; [discriminate H|]). exact H. }
  assert (H3 : Z.of_nat (length (bytes "hello" ++ [LF])) <= INT_MAX).
  { vm_compute. discriminate. }
  split; [exact H1 | split; [exact H2 | split; [exact H3 |]]].
  exact (byte_mode_full_range_identity LF (bytes "hello" ++ [LF]) H1 H2 H3).
Defined.

(** C5 fails on a line with a NUL byte: with [1-] the line [a NUL b]
    writes [a] and the terminator, not the line. *)
Lemma byte_mode_full_range_loses_bytes :
  is_line (bytes "a" ++ NUL :: bytes "b" ++ [LF]) /\
  cut_bytes_line (parse_ranges (bytes "1-")) LF
                 (bytes "a" ++ NUL :: bytes "b" ++ [LF])
  = bytes "a" ++ [LF] /\
  cut_bytes_line (parse_ranges (bytes "1-")) LF
                 (bytes "a" ++ NUL :: bytes "b" ++ [LF])
  <> chomp (bytes "a" ++ NUL :: bytes "b" ++ [LF]) ++ [LF].
Proof.
  split; [|split].
  - exists (bytes "a" ++ NUL :: bytes "b"). split; [|now left].
    simpl. intros H. repeat (destruct H as [H|H]; [discriminate H|]). exact H.
  - reflexivity.
  - vm_compute. discriminate.
Qed.

(** ** Tokens *)

Section Tokens.

Variable delim : list ascii.

Lemma tokens_cons (c : ascii) (rest : list ascii) :
  tokens delim (c :: rest) =
  if is_delim delim c then tokens delim rest
  else match rest with
       | [] => [[c]]
       | c' :: _ =>
           if is_delim delim c' then [c] :: tokens delim rest
           else match tokens delim rest with
                | t :: ts => (c :: t) :: ts
                | [] => [[c]]
                end
       end.
Proof. destruct rest; reflexivity. Qed.

Lemma tokens_not_empty (s : list ascii) :
  Forall (fun t => t <> []) (tokens delim s).
Proof.
  induction s as [|c rest IH]; [constructor|].
  rewrite tokens_cons.
  destruct (is_delim delim c); [exact IH|].
  destruct rest as [|c' rest']; [repeat constructor; discriminate|].
  destruct (is_delim delim c'); [constructor; [discriminate | exact IH]|].
  destruct (tokens delim (c' :: rest')) as [|t ts].
  - repeat constructor; discriminate.
  - inversion IH; subst. constructor; [discriminate | assumption].
Qed.

Lemma tokens_sound (s : list ascii) :
  forall t c, In t (tokens delim s) -> In c t ->
              In c s /\ is_delim delim c = false.
Proof.
  induction s as [|x rest IH]; intros t c; [simpl; tauto|].
  rewrite tokens_cons.
  destruct (is_delim delim x) eqn:Hx.
  { intros Ht Hc. destruct (IH t c Ht Hc). split; [now right | assumption]. }
  assert (Hhead : forall ts, In t ([x] :: ts) -> In c t ->
            (forall t', In t' ts -> In c t' -> In c rest /\ is_delim delim c = false) ->
            In c (x :: rest) /\ is_delim delim c = false).
  { intros ts [<-|Ht] Hc Hts.
    - destruct Hc as [<-|[]]. split; [now left | assumption].
    - destruct (Hts t Ht Hc). split; [now right | assumption]. }
  destruct rest as [|c' rest'].
  { intros Ht Hc. apply (Hhead [] Ht Hc). simpl; tauto. }
  destruct (is_delim delim c').
  { intros Ht Hc. apply (Hhead _ Ht Hc). intros t'. apply IH. }
  destruct (tokens delim (c' :: rest')) as [|t0 ts].
  { intros Ht Hc. apply (Hhead [] Ht Hc). simpl; tauto. }
  intros [<-|Ht] Hc.
  - destruct Hc as [<-|Hc]; [split; [now left | assumption]|].
    destruct (IH t0 c (or_introl eq_refl) Hc). split; [now right | assumption].
  - destruct (IH t c (or_intror Ht) Hc). split; [now right | assumption].
Qed.

Lemma tokens_length (s : list ascii) :
  (length (tokens delim s) <= length s)%nat.
Proof.
  induction s as [|c rest IH]; [simpl; lia|].
  rewrite tokens_cons.
  destruct (is_delim delim c); [simpl; lia|].
  destruct rest as [|c' rest']; [simpl; lia|].
  destruct (is_delim delim c'); [simpl in *; lia|].
  destruct (tokens delim (c' :: rest')); simpl in *; lia.
Qed.

(** A token that is not empty and holds no delimiter, then a delimiter:
    the first token. *)
Lemma tokens_token_delim (t : list ascii) (d : ascii) (rest : list ascii) :
  t <> [] -> (forall c, In c t -> is_delim delim c = false) ->
  is_delim delim d = true ->
  tokens delim (t ++ d :: rest) = t :: tokens delim rest.
Proof.
  intros Hne Ht Hd. induction t as [|c t' IH]; [contradiction|].
  cbn [app]. rewrite tokens_cons, (Ht c (or_introl eq_refl)).
  destruct t' as [|c' t''].
  - cbn [app]. rewrite Hd, tokens_cons, Hd. reflexivity.
  - cbn [app]. rewrite (Ht c' (or_intror (or_introl eq_refl))).
    cbn [app] in IH. rewrite IH; [reflexivity | discriminate |].
    intros x Hx. apply Ht. now right.
Qed.

Lemma tokens_last_token (t : list ascii) :
  t <> [] -> (forall c, In c t -> is_delim delim c = false) ->
  tokens delim t = [t].
Proof.
  intros Hne Ht. induction t as [|c t' IH]; [contradiction|].
  rewrite tokens_cons, (Ht c (or_introl eq_refl)).
  destruct t' as [|c' t'']; [reflexivity|].
  rewrite (Ht c' (or_intror (or_introl eq_refl))).
  rewrite IH; [reflexivity | discriminate |].
  intros x Hx. apply Ht. now right.
Qed.

End Tokens.

(** ** Field mode *)

Section FieldMode.

Variable ranges : list Range.
Variable delim : list ascii.

(** Once a field is written [first_output] stays 0. *)
Lemma cut_fields_scan_written (toks : list (list ascii)) :
  forall field, snd (cut_fields_scan ranges delim toks field false) = false.
Proof.
  induction toks as [|t next IH]; intros field; simpl; [reflexivity|].
  destruct (in_range ranges field); [|apply IH].
  specialize (IH (to_int (field + 1))).
  destruct (cut_fields_scan ranges delim next (to_int (field + 1)) false).
  exact IH.
Qed.

(** [first_output] is still 1 at the end: nothing was written. *)
Lemma cut_fields_scan_first_output (toks : list (list ascii)) :
  forall field fo,
    snd (cut_fields_scan ranges delim toks field fo) = true ->
    cut_fields_scan ranges delim toks field fo = ([], true).
Proof.
  induction toks as [|t next IH]; intros field fo; simpl.
  - now intros ->.
  - destruct (in_range ranges field); [|apply IH].
    pose proof (cut_fields_scan_written next (to_int (field + 1))) as Hw.
    destruct (cut_fields_scan ranges delim next (to_int (field + 1)) false)
      as [out fo'].
    simpl in *. intros ->. discriminate Hw.
Qed.

Lemma cut_fields_scan_nothing (toks : list (list ascii)) :
  forall field fo,
    1 <= field ->
    field + Z.of_nat (length toks) <= INT_MAX + 1 ->
    (forall k, field <= k < field + Z.of_nat (length toks) ->
               in_range ranges k = false) ->
    cut_fields_scan ranges delim toks field fo = ([], fo).
Proof.
  induction toks as [|t next IH]; intros field fo Hlo Hhi Hno; [reflexivity|].
  cbn [length] in Hhi, Hno. rewrite Nat2Z.inj_succ in Hhi, Hno.
  cbn [cut_fields_scan]. rewrite Hno by lia.
  destruct next as [|t' next']; [reflexivity|].
  cbn [length] in Hhi, Hno. rewrite Nat2Z.inj_succ in Hhi, Hno.
  rewrite to_int_small by (unfold INT_MIN, INT_MAX in *; lia).
  apply IH; cbn [length]; rewrite ?Nat2Z.inj_succ; try lia.
  intros k Hk. apply Hno. lia.
Qed.

(** The bytes the loop writes come from the delimiter and the tokens. *)
Lemma cut_fields_scan_sound (toks : list (list ascii)) (c : ascii) :
  forall field fo,
    In c (fst (cut_fields_scan ranges delim toks field fo)) ->
    In c (cstr delim) \/ exists t, In t toks /\ In c t.
Proof.
  induction toks as [|t next IH]; intros field fo; simpl; [tauto|].
  destruct (in_range ranges field).
  - specialize (IH (to_int (field + 1)) false).
    destruct (cut_fields_scan ranges delim next (to_int (field + 1)) false)
      as [out fo'].
    simpl in *. intros H.
    apply in_app_or in H. destruct H as [H|H].
    { destruct fo; [contradiction | now left]. }
    apply in_app_or in H. destruct H as [H|H].
    { right. exists t. tauto. }
    destruct (IH H) as [Hd | [t' [Ht' Hc]]]; [now left|].
    right. exists t'. tauto.
  - intros H. destruct (IH _ _ H) as [Hd | [t' [Ht' Hc]]]; [now left|].
    right. exists t'. tauto.
Qed.

End FieldMode.

Lemma strlen_one (s : list ascii) :
  strlen s = 1 -> exists d, cstr s = [d] /\ d <> NUL /\ first_byte s = d.
Proof.
  unfold strlen, first_byte. destruct s as [|c rest]; simpl; [discriminate|].
  destruct (Ascii.eqb_spec c NUL) as [->|Hc]; simpl; [discriminate|].
  destruct (cstr rest) as [|c' r']; simpl; [|lia].
  intros _. exists c. auto.
Qed.

Lemma cstr_single (d : ascii) : d <> NUL -> cstr [d] = [d].
Proof.
  intros Hd. simpl. destruct (Ascii.eqb_spec d NUL); [contradiction | reflexivity].
Qed.

(** C6, as the code has it.  In field mode a line in which the delimiter
    does not occur writes nothing when suppression is set; when it is not
    set and the line holds no NUL byte, the line is written as it is,
    followed by the terminator. *)
Theorem field_mode_line_without_delimiter
  (ranges : list Range) (d : ascii) (line_delim : ascii) (line : list ascii) :
  d <> NUL ->
  ~ In d (chomp line) ->
  cut_fields_line ranges [d] true line_delim line = [] /\
  (~ In NUL (chomp line) ->
   cut_fields_line ranges [d] false line_delim line = chomp line ++ [line_delim]).
Proof.
  intros Hd Hno.
  assert (Hs : strchr (chomp line) d = None).
  { apply strchr_None; [exact Hd|]. intros H. apply Hno. now apply cstr_incl. }
  unfold cut_fields_line. cbn [first_byte hd]. rewrite Hs.
  split; [reflexivity|]. intros Hnul. now rewrite cstr_id.
Qed.

Lemma field_mode_line_without_delimiter_witness :
  "," <> NUL /\
  ~ In "," (chomp (bytes "abc" ++ [LF])) /\
  cut_fields_line (parse_ranges (bytes "1")) [","] true LF (bytes "abc" ++ [LF])
  = [] /\
  (~ In NUL (chomp (bytes "abc" ++ [LF])) ->
   cut_fields_line (parse_ranges (bytes "1")) [","] false LF (bytes "abc" ++ [LF])
   = chomp (bytes "abc" ++ [LF]) ++ [LF]).
Proof.
  assert (H1 : "," <> NUL) by discriminate.
  assert (H2 : ~ In "," (chomp (bytes "abc" ++ [LF]))).
  { simpl. intros H. repeat (destruct H as [H|H]; [discriminate H|]). exact H. }
  split; [exact H1 | split; [exact H2 |]].
  exact (field_mode_line_without_delimiter
           (parse_ranges (bytes "1")) "," LF (bytes "abc" ++ [LF]) H1 H2).
Defined.

(** C6 fails on a line with a NUL byte: without suppression the line
    [a NUL b], in which [,] does not occur, writes [a] and the
    terminator, not the line. *)
Lemma field_mode_line_without_delimiter_cut_at_NUL :
  ~ In "," (chomp (bytes "a" ++ NUL :: bytes "b" ++ [LF])) /\
  cut_fields_line (parse_ranges (bytes "1")) [","] false LF
                  (bytes "a" ++ NUL :: bytes "b" ++ [LF])
  = bytes "a" ++ [LF] /\
  cut_fields_line (parse_ranges (bytes "1")) [","] false LF
                  (bytes "a" ++ NUL :: bytes "b" ++ [LF])
  <> chomp (bytes "a" ++ NUL :: bytes "b" ++ [LF]) ++ [LF].
Proof.
  split; [|split].
  - simpl. intros H. repeat (destruct H as [H|H]; [discriminate H|]). exact H.
  - reflexivity.
  - vm_compute. discriminate.
Qed.

Lemma cut_bytes_bodies (ranges : list Range) (line_delim : ascii)
  (lines : list (list ascii)) :
  flat_map (cut_bytes_line ranges line_delim) lines
  = terminated line_delim (map (fun l => cut_bytes_scan ranges l 1) lines).
Proof.
  unfold terminated. induction lines as [|l ls IH]; simpl; [reflexivity|].
  now rewrite IH.
Qed.

Lemma cut_bytes_scan_is_body (ranges : list Range) (line : list ascii) :
  is_body (cut_bytes_scan ranges line 1).
Proof.
  split; intros H; apply cut_bytes_scan_sound in H; tauto.
Qed.

(** C3, as the code has it.  In byte mode the output is one body per input
    line, each followed by the terminator, also for a line of which no
    position is selected.  In field mode a line in which the delimiter
    occurs before any NUL byte, and of which no field is selected, writes
    nothing, no terminator either. *)
Theorem terminator_asymmetry :
  (forall fp ranges line_delim,
      exists bodies,
        length bodies = length (read_lines fp) /\
        Forall is_body bodies /\
        cut_bytes fp ranges line_delim = terminated line_delim bodies) /\
  (forall ranges line_delim line,
      Z.of_nat (length line) <= INT_MAX ->
      (forall p, 1 <= p <= Z.of_nat (length line) ->
                 in_range ranges p = false) ->
      cut_bytes_line ranges line_delim line = [line_delim]) /\
  (forall ranges d suppress line_delim line,
      d <> NUL ->
      In d (cstr (chomp line)) ->
      Z.of_nat (length (fields d line)) <= INT_MAX ->
      (forall k, 1 <= k <= Z.of_nat (length (fields d line)) ->
                 in_range ranges k = false) ->
      cut_fields_line ranges [d] suppress line_delim line = []).
Proof.
  split; [|split].
  - intros fp ranges line_delim.
    exists (map (fun l => cut_bytes_scan ranges l 1) (read_lines fp)).
    split; [apply length_map|]. split.
    + apply Forall_forall. intros b Hb. apply in_map_iff in Hb.
      destruct Hb as [l [<- _]]. apply cut_bytes_scan_is_body.
    + apply cut_bytes_bodies.
  - intros ranges line_delim line Hlen Hno. unfold cut_bytes_line.
    rewrite cut_bytes_scan_nothing; [reflexivity | lia | lia |].
    intros k Hk. apply Hno. lia.
  - intros ranges d suppress line_delim line Hd Hin Hlen Hno.
    unfold cut_fields_line. cbn [first_byte hd].
    destruct (strchr (chomp line) d) eqn:Hs.
    2:{ apply strchr_None in Hs; [contradiction | exact Hd]. }
    rewrite (cstr_single d Hd).
    change (tokens [d] (strdup (chomp line))) with (fields d line).
    rewrite cut_fields_scan_nothing; [reflexivity | lia | lia |].
    intros k Hk. apply Hno. lia.
Qed.

Lemma terminator_asymmetry_witness :
  cut_bytes_line (parse_ranges (bytes "9")) LF (bytes "abc" ++ [LF]) = [LF] /\
  cut_fields_line (parse_ranges (bytes "5")) [","] false LF
                  (bytes "a,b,c" ++ [LF]) = [].
Proof.
  destruct terminator_asymmetry as [_ [Hbyte Hfield]]. split.
  - apply (Hbyte (parse_ranges (bytes "9")) LF (bytes "abc" ++ [LF])).
    + vm_compute. discriminate.
    + intros p Hp. change (Z.of_nat (length (bytes "abc" ++ [LF]))) with 4 in Hp.
      change (parse_ranges (bytes "9")) with [{| start := 9; end_ := 9 |}].
      cbn [in_range start end_].
      replace (9 <=? p) with false by (symmetry; apply Z.leb_gt; lia).
      reflexivity.
  - apply (Hfield (parse_ranges (bytes "5")) "," false LF (bytes "a,b,c" ++ [LF])).
    + discriminate.
    + vm_compute. tauto.
    + vm_compute. discriminate.
    + intros k Hk. change (Z.of_nat (length (fields "," (bytes "a,b,c" ++ [LF]))))
        with 3 in Hk.
      change (parse_ranges (bytes "5")) with [{| start := 5; end_ := 5 |}].
      cbn [in_range start end_].
      replace (5 <=? k) with false by (symmetry; apply Z.leb_gt; lia).
      reflexivity.
Defined.

(** C3 fails on a line whose delimiter comes after a NUL byte: the line
    [a NUL , b] has no fifth field, and without suppression the selector
    [5] writes [a] and the terminator. *)
Lemma field_mode_delimiter_after_NUL :
  In "," (chomp (bytes "a" ++ NUL :: bytes ",b" ++ [LF])) /\
  Z.of_nat (length (chomp (bytes "a" ++ NUL :: bytes ",b" ++ [LF]))) < 5 /\
  parse_ranges (bytes "5") = [{| start := 5; end_ := 5 |}] /\
  cut_fields_line (parse_ranges (bytes "5")) [","] false LF
                  (bytes "a" ++ NUL :: bytes ",b" ++ [LF])
  = bytes "a" ++ [LF] /\
  cut_fields_line (parse_ranges (bytes "5")) [","] false LF
                  (bytes "a" ++ NUL :: bytes ",b" ++ [LF])
  <> [].
Proof.
  split; [|split; [|split; [|split]]].
  - vm_compute. tauto.
  - reflexivity.
  - reflexivity.
  - reflexivity.
  - vm_compute. discriminate.
Qed.

(** The tokens of [strtok_r] are the fields of the specification that
    are not empty. *)
Lemma tokens_split_every (d : ascii) (s : list ascii) :
  tokens [d] s = filter not_empty (split_every d s).
Proof.
  assert (Hd : forall c, is_delim [d] c = (c =? d)%char).
  { intros c. unfold is_delim. simpl. apply orb_false_r. }
  induction s as [|c rest IH]; [reflexivity|].
  rewrite tokens_cons, Hd. cbn [split_every].
  destruct (c =? d)%char; [exact IH|].
  destruct rest as [|c' rest']; [reflexivity|].
  rewrite Hd. rewrite IH. cbn [split_every].
  destruct (c' =? d)%char; [reflexivity|].
  destruct (split_every d rest') as [|f fs]; reflexivity.
Qed.

(** C1, on the code.  The field loop takes its fields from [strtok_r],
    which never returns an empty token: delimiters that follow one another
    end one field only, and the fields the loop numbers are the fields
    between the delimiters that are not empty.  With the delimiter [,] the
    line [a,,b] has the two fields [a] and [b]; the selector [2] writes
    [b], the selector [3] writes nothing. *)
Theorem field_mode_merges_adjacent_delimiters :
  (forall d line, Forall (fun t => t <> []) (fields d line)) /\
  (forall d line,
      fields d line = filter not_empty (split_every d (cstr (chomp line)))) /\
  split_every "," (bytes "a,,b") = [bytes "a"; bytes ""; bytes "b"] /\
  fields "," (bytes "a,,b" ++ [LF]) = [bytes "a"; bytes "b"] /\
  stdout (cut_builtin no_file (bytes "a,,b" ++ [LF])
                      [opt "d" ","; opt "f" "2"] [])
  = bytes "b" ++ [LF] /\
  stdout (cut_builtin no_file (bytes "a,,b" ++ [LF])
                      [opt "d" ","; opt "f" "3"] [])
  = [].
Proof.
  split; [|split; [|repeat split]].
  - intros d line. apply tokens_not_empty.
  - intros d line. apply tokens_split_every.
Qed.

(** C2, as the code has it.  With the delimiter [,] and the input line
    [a,b,c] the selector [1,3] writes the line [a,c], the selector [2]
    the line [b], and the selector [5] writes nothing at all, no
    terminator either. *)
Theorem field_mode_round_trip :
  stdout (cut_builtin no_file (bytes "a,b,c" ++ [LF])
                      [opt "d" ","; opt "f" "1,3"] [])
  = bytes "a,c" ++ [LF] /\
  stdout (cut_builtin no_file (bytes "a,b,c" ++ [LF])
                      [opt "d" ","; opt "f" "2"] [])
  = bytes "b" ++ [LF] /\
  stdout (cut_builtin no_file (bytes "a,b,c" ++ [LF])
                      [opt "d" ","; opt "f" "5"] [])
  = [].
Proof. repeat split. Qed.

(** C2 fails for the selector [5]: what is written is not an empty line,
    which is the terminator alone. *)
Lemma field_mode_out_of_range_no_line :
  stdout (cut_builtin no_file (bytes "a,b,c" ++ [LF])
                      [opt "d" ","; opt "f" "5"] [])
  <> bytes "" ++ [LF].
Proof. vm_compute. discriminate. Qed.

(** ** Numerals and [atoi] *)

Section Numerals.

Lemma digit_is_plain (c : ascii) :
  isdigit c = true ->
  isspace c = false /\ c <> "-" /\ c <> "+" /\ c <> "," /\ c <> NUL.
Proof.
  destruct c as [[] [] [] [] [] [] [] []]; intros H; try discriminate H;
    repeat split; discriminate.
Qed.

Lemma uchars_digits (d : Decimal.uint) :
  Forall (fun c => isdigit c = true) (uchars d).
Proof.
  induction d; simpl; constructor; (reflexivity || assumption).
Qed.

Lemma atoi_digits_uchars (d : Decimal.uint) :
  forall rest acc,
    atoi_digits (uchars d ++ rest) acc = atoi_digits rest (uvalue d acc).
Proof.
  induction d; intros rest acc; simpl; try reflexivity; apply IHd.
Qed.

Lemma uvalue_acc (d : Decimal.uint) :
  forall acc, uvalue d (Z.pos acc) = Z.pos (Pos.of_uint_acc d acc).
Proof.
  induction d; intros acc; cbn [uvalue Pos.of_uint_acc];
    [reflexivity | rewrite <- IHd; f_equal; lia ..].
Qed.

Lemma uvalue_of_uint (d : Decimal.uint) : uvalue d 0 = Z.of_N (N.of_uint d).
Proof.
  unfold N.of_uint.
  induction d; cbn [uvalue Pos.of_uint]; try reflexivity;
    [exact IHd | apply uvalue_acc ..].
Qed.

Lemma decimal_digits (n : N) : Forall (fun c => isdigit c = true) (decimal n).
Proof. apply uchars_digits. Qed.

Lemma decimal_not_empty (n : N) : decimal n <> [].
Proof.
  unfold decimal. destruct n as [|p]; [discriminate|].
  cbn [N.to_uint]. pose proof (DecimalPos.Unsigned.to_uint_nonnil p) as H.
  destruct (Pos.to_uint p); [contradiction | discriminate ..].
Qed.

Lemma atoi_digits_decimal (n : N) (rest : list ascii) :
  atoi_digits (decimal n ++ rest) 0 = atoi_digits rest (Z.of_N n).
Proof.
  unfold decimal.
  rewrite atoi_digits_uchars, uvalue_of_uint.
  now rewrite DecimalN.Unsigned.of_to.
Qed.

Lemma digits_no_NUL (ds : list ascii) :
  Forall (fun c => isdigit c = true) ds -> ~ In NUL ds.
Proof.
  intros H Hin. rewrite Forall_forall in H. specialize (H NUL Hin).
  discriminate H.
Qed.

Lemma strtol_digit_head (c : ascii) (rest : list ascii) :
  isdigit c = true ->
  strtol (c :: rest)
  = Z.max LONG_MIN (Z.min LONG_MAX (atoi_digits (c :: rest) 0)).
Proof.
  destruct c as [[] [] [] [] [] [] [] []]; intros H; try discriminate H;
    reflexivity.
Qed.

Lemma atoi_decimal (n : N) : Z.of_N n <= INT_MAX -> atoi (decimal n) = Z.of_N n.
Proof.
  intros Hn. unfold atoi.
  rewrite cstr_id by apply digits_no_NUL, decimal_digits.
  pose proof (decimal_digits n) as Hd.
  pose proof (atoi_digits_decimal n []) as Hv. rewrite app_nil_r in Hv.
  destruct (decimal n) as [|c rest] eqn:E; [now apply decimal_not_empty in E|].
  inversion Hd as [|? ? Hc _]; subst.
  rewrite strtol_digit_head by exact Hc. rewrite Hv. cbn [atoi_digits].
  unfold LONG_MIN, LONG_MAX, INT_MAX in *.
  rewrite Z.min_r, Z.max_r by lia.
  apply to_int_small. unfold INT_MIN, INT_MAX. lia.
Qed.

End Numerals.

(** ** Selector lists *)

Section Selectors.

Lemma strchr_no_dash (ds : list ascii) :
  Forall (fun c => isdigit c = true) ds -> strchr ds "-" = None.
Proof.
  induction 1 as [|c rest Hc _ IH]; [reflexivity|].
  destruct (digit_is_plain c Hc) as [_ [Hd [_ [_ Hn]]]].
  simpl. destruct (Ascii.eqb_spec c "-"); [contradiction|].
  destruct (Ascii.eqb_spec c NUL); [contradiction|].
  now rewrite IH.
Qed.

Lemma strchr_dash (ds rest : list ascii) :
  Forall (fun c => isdigit c = true) ds ->
  strchr (ds ++ "-" :: rest) "-" = Some (length ds).
Proof.
  induction 1 as [|c ds' Hc _ IH]; [reflexivity|].
  destruct (digit_is_plain c Hc) as [_ [Hd [_ [_ Hn]]]].
  simpl. destruct (Ascii.eqb_spec c "-"); [contradiction|].
  destruct (Ascii.eqb_spec c NUL); [contradiction|].
  now rewrite IH.
Qed.

Lemma split_at_dash (ds rest : list ascii) :
  split_at (length ds) (ds ++ "-" :: rest) = (ds, rest).
Proof.
  unfold split_at. f_equal.
  - rewrite firstn_app, Nat.sub_diag, firstn_all. simpl. apply app_nil_r.
  - induction ds as [|c ds' IH]; [reflexivity | exact IH].
Qed.

(** The range of each shape of token. *)
Lemma parse_token_render (t : selector_token) :
  fits_int t -> parse_token (render t) = stored (denotes t).
Proof.
  unfold parse_token, stored.
  destruct t as [n | n | m | n m]; cbn [render denotes fst snd fits_int].
  - intros Hn. rewrite strchr_no_dash by apply decimal_digits.
    now rewrite atoi_decimal.
  - intros Hn. rewrite strchr_dash by apply decimal_digits.
    rewrite split_at_dash.
    destruct (length (decimal n)) eqn:E.
    { apply length_zero_iff_nil in E. now apply decimal_not_empty in E. }
    now rewrite atoi_decimal.
  - intros Hm. cbn [strchr Ascii.eqb Bool.eqb]. cbn [skipn].
    now rewrite atoi_decimal.
  - intros [Hn Hm]. rewrite strchr_dash by apply decimal_digits.
    rewrite split_at_dash.
    destruct (length (decimal n)) eqn:E.
    { apply length_zero_iff_nil in E. now apply decimal_not_empty in E. }
    destruct (decimal m) as [|c r] eqn:Em; [now apply decimal_not_empty in Em|].
    rewrite <- Em. now rewrite !atoi_decimal.
Qed.

(** A rendered token: not empty, no comma, no NUL byte. *)
Lemma render_plain (t : selector_token) :
  render t <> [] /\ forall c, In c (render t) -> c <> "," /\ c <> NUL.
Proof.
  assert (Hdig : forall n c, In c (decimal n) -> c <> "," /\ c <> NUL).
  { intros n c Hin. pose proof (decimal_digits n) as H.
    rewrite Forall_forall in H. destruct (digit_is_plain c (H c Hin)). tauto. }
  assert (Hdash : "-" <> "," /\ "-" <> NUL) by (split; discriminate).
  destruct t as [n | n | m | n m]; cbn [render]; split.
  - apply decimal_not_empty.
  - apply Hdig.
  - intros H. apply app_eq_nil in H. destruct H as [_ H]. discriminate H.
  - intros c Hin. apply in_app_or in Hin.
    destruct Hin as [Hin | [<- | []]]; [now apply (Hdig n) | exact Hdash].
  - discriminate.
  - intros c [<- | Hin]; [exact Hdash | now apply (Hdig m)].
  - intros H. apply app_eq_nil in H. destruct H as [_ H]. discriminate H.
  - intros c Hin. apply in_app_or in Hin.
    destruct Hin as [Hin | [<- | Hin]];
      [now apply (Hdig n) | exact Hdash | now apply (Hdig m)].
Qed.

Lemma is_delim_comma (c : ascii) : is_delim [","] c = true <-> c = ",".
Proof.
  unfold is_delim. simpl. rewrite orb_false_r. apply Ascii.eqb_eq.
Qed.

(** [strtok] gives back the tokens a selector list was joined from. *)
Lemma tokens_join_commas (toks : list (list ascii)) :
  Forall (fun t => t <> [] /\ forall c, In c t -> c <> ",") toks ->
  tokens [","] (join_commas toks) = toks.
Proof.
  assert (Hnd : forall t : list ascii, (forall c, In c t -> c <> ",") ->
                forall c, In c t -> is_delim [","] c = false).
  { intros t Ht c Hin. destruct (is_delim [","] c) eqn:E; [|reflexivity].
    apply is_delim_comma in E. now apply Ht in Hin. }
  induction 1 as [|t rest [Hne Ht] Hrest IH]; [reflexivity|].
  destruct rest as [|t' rest'].
  - cbn [join_commas]. apply tokens_last_token; [exact Hne | exact (Hnd t Ht)].
  - change (join_commas (t :: t' :: rest'))
      with (t ++ "," :: join_commas (t' :: rest')).
    rewrite tokens_token_delim;
      [| exact Hne | exact (Hnd t Ht) | now apply is_delim_comma].
    now rewrite IH.
Qed.

Lemma join_commas_no_NUL (toks : list (list ascii)) :
  Forall (fun t => ~ In NUL t) toks -> ~ In NUL (join_commas toks).
Proof.
  induction 1 as [|t rest Ht Hrest IH]; [simpl; tauto|].
  destruct rest as [|t' rest']; [exact Ht|].
  change (join_commas (t :: t' :: rest'))
    with (t ++ "," :: join_commas (t' :: rest')).
  intros Hin. apply in_app_or in Hin.
  destruct Hin as [Hin | [Hin | Hin]]; [tauto | discriminate Hin | tauto].
Qed.

Lemma parse_ranges_selector (ts : list selector_token) :
  Forall fits_int ts ->
  parse_ranges (selector ts) = map (fun t => stored (denotes t)) ts.
Proof.
  intros Hfit. unfold parse_ranges, selector, strdup.
  rewrite cstr_id.
  2:{ apply join_commas_no_NUL, Forall_forall. intros t Ht Hin.
      apply in_map_iff in Ht. destruct Ht as [t0 [<- _]].
      destruct (render_plain t0) as [_ H]. destruct (H NUL Hin). congruence. }
  rewrite tokens_join_commas.
  2:{ apply Forall_forall. intros t Ht. apply in_map_iff in Ht.
      destruct Ht as [t0 [<- _]]. destruct (render_plain t0) as [Hne H].
      split; [exact Hne|]. intros c Hin. now destruct (H c Hin). }
  rewrite map_map. apply map_ext_in. intros t Ht.
  apply parse_token_render. rewrite Forall_forall in Hfit. now apply Hfit.
Qed.

Lemma in_range_Exists (ranges : list Range) (p : Z) :
  in_range ranges p = true <->
  Exists (fun r => start r <= p <= end_ r) ranges.
Proof.
  induction ranges as [|r next IH]; simpl.
  - split; [discriminate | intros H; inversion H].
  - destruct (Z.leb_spec (start r) p); destruct (Z.leb_spec p (end_ r)); simpl.
    + split; [intros _; left; lia | reflexivity].
    + rewrite IH. split; [now right | intros H'; inversion H'; [lia | assumption]].
    + rewrite IH. split; [now right | intros H'; inversion H'; [lia | assumption]].
    + rewrite IH. split; [now right | intros H'; inversion H'; [lia | assumption]].
Qed.

Lemma stored_lies_in (i : Z * option Z) (p : Z) :
  p <= INT_MAX -> (start (stored i) <= p <= end_ (stored i) <-> lies_in p i).
Proof.
  intros Hp. unfold stored, lies_in. destruct i as [lo [hi|]]; simpl; lia.
Qed.

End Selectors.

(** C4, as the code has it.  Parsing a selector list and asking for
    membership is the interval semantics of its tokens when the numbers
    are values of an [int], that is at most [INT_MAX]: for such numbers the
    tokens [N], [N-], [-M] and [N-M] are stored as the ranges of the
    intervals (N,N), (N,no bound), (1,M) and (N,M), in the order of the
    list, and a position [p] of type [int] is in range exactly when it
    lies in one of the intervals.  For [2,4-6,8-] the positions in range
    are 2, 4, 5, 6 and every position from 8 on; 1, 3 and 7 are not. *)
Theorem selector_interval_semantics :
  (forall ts,
      Forall fits_int ts ->
      parse_ranges (selector ts) = map (fun t => stored (denotes t)) ts) /\
  (forall ts p,
      Forall fits_int ts -> p <= INT_MAX ->
      (in_range (parse_ranges (selector ts)) p = true
       <-> Exists (lies_in p) (map denotes ts))) /\
  selector [Single 2; Span 4 6; From 8] = bytes "2,4-6,8-" /\
  (forall p,
      p <= INT_MAX ->
      (in_range (parse_ranges (bytes "2,4-6,8-")) p = true
       <-> p = 2 \/ 4 <= p <= 6 \/ 8 <= p)) /\
  in_range (parse_ranges (bytes "2,4-6,8-")) 1 = false /\
  in_range (parse_ranges (bytes "2,4-6,8-")) 3 = false /\
  in_range (parse_ranges (bytes "2,4-6,8-")) 7 = false.
Proof.
  assert (Hgen : forall ts p,
             Forall fits_int ts -> p <= INT_MAX ->
             (in_range (parse_ranges (selector ts)) p = true
              <-> Exists (lies_in p) (map denotes ts))).
  { intros ts p Hfit Hp. rewrite parse_ranges_selector by exact Hfit.
    rewrite in_range_Exists, !Exists_exists. split.
    - intros [r [Hr Hin]]. apply in_map_iff in Hr. destruct Hr as [t [<- Ht]].
      exists (denotes t). split; [now apply in_map | now apply stored_lies_in].
    - intros [i [Hi Hin]]. apply in_map_iff in Hi. destruct Hi as [t [<- Ht]].
      exists (stored (denotes t)). split.
      + apply in_map_iff. now exists t.
      + now apply stored_lies_in. }
  split; [exact parse_ranges_selector|]. split; [exact Hgen|].
  split; [reflexivity|]. split; [|repeat split].
  intros p Hp.
  change (bytes "2,4-6,8-") with (selector [Single 2; Span 4 6; From 8]).
  rewrite Hgen; [| repeat constructor; vm_compute; discriminate | exact Hp].
  cbn [map denotes]. unfold lies_in. split.
  - intros H. repeat (apply Exists_cons in H; destruct H as [H|H]);
      [simpl in H; lia .. | inversion H].
  - intros [H | [H | H]].
    + apply Exists_cons_hd. simpl. lia.
    + apply Exists_cons_tl, Exists_cons_hd. simpl. lia.
    + apply Exists_cons_tl, Exists_cons_tl, Exists_cons_hd. simpl. lia.
Qed.

Lemma selector_interval_semantics_witness :
  Forall fits_int [Single 2; Span 4 6; From 8] /\
  5 <= INT_MAX /\
  parse_ranges (selector [Single 2; Span 4 6; From 8])
  = [{| start := 2; end_ := 2 |}; {| start := 4; end_ := 6 |};
     {| start := 8; end_ := INT_MAX |}] /\
  (in_range (parse_ranges (selector [Single 2; Span 4 6; From 8])) 5 = true
   <-> Exists (lies_in 5) (map denotes [Single 2; Span 4 6; From 8])).
Proof.
  assert (H1 : Forall fits_int [Single 2; Span 4 6; From 8]).
  { repeat constructor; vm_compute; discriminate. }
  assert (H2 : 5 <= INT_MAX) by (vm_compute; discriminate).
  destruct selector_interval_semantics as [Hparse [Hin _]].
  split; [exact H1 | split; [exact H2 | split]].
  - exact (Hparse [Single 2; Span 4 6; From 8] H1).
  - exact (Hin [Single 2; Span 4 6; From 8] 5 H1 H2).
Defined.

(** C4 fails for a number that is not a value of an [int]: [atoi] brings
    it into the range of [int].  The token [1-3000000000] denotes the
    interval (1,3000000000), in which 2 lies, but it is stored as the range
    (1,-1294967296), and 2 is not in range. *)
Lemma selector_number_beyond_int :
  selector [Span 1 3000000000] = bytes "1-3000000000" /\
  lies_in 2 (denotes (Span 1 3000000000)) /\
  parse_ranges (bytes "1-3000000000")
  = [{| start := 1; end_ := -1294967296 |}] /\
  in_range (parse_ranges (bytes "1-3000000000")) 2 = false.
Proof.
  split; [vm_compute; reflexivity|]. split; [|split].
  - unfold lies_in. cbn [denotes fst snd]. lia.
  - vm_compute. reflexivity.
  - vm_compute. reflexivity.
Qed.

(** ** The option loop *)

Section Options.

Ltac split_opt opt :=
  destruct (Z.eqb_spec opt (chr "b")); [subst opt|];
  [|destruct (Z.eqb_spec opt (chr "c")); [subst opt|]];
  [| |destruct (Z.eqb_spec opt (chr "d")); [subst opt|]];
  [| | |destruct (Z.eqb_spec opt (chr "f")); [subst opt|]];
  [| | | |destruct (Z.eqb_spec opt (chr "s")); [subst opt|]];
  [| | | | |destruct (Z.eqb_spec opt (chr "z")); [subst opt|]].

(** What a turn of the loop that goes on has seen and done. *)
Lemma option_step_inr (o o' : options) (ev : Z * list ascii) :
  option_step o ev = inr o' ->
  (is_list_option ev = true /\ mode o = 0 /\ mode o' <> 0 /\
   delimiter o' = delimiter o) \/
  (is_list_option ev = false /\ mode o' = mode o /\
   (fst ev = chr "d" -> strlen (snd ev) = 1 /\ delimiter o' = snd ev) /\
   (fst ev <> chr "d" -> delimiter o' = delimiter o)).
Proof.
  destruct ev as [opt arg]. unfold option_step, is_list_option. cbn [fst snd].
  split_opt opt; cbn [orb].
  - destruct (Z.eqb_spec (mode o) 0); cbn [negb]; [|discriminate].
    intros [= <-]. left. cbn. repeat split; [assumption | discriminate].
  - destruct (Z.eqb_spec (mode o) 0); cbn [negb]; [|discriminate].
    intros [= <-]. left. cbn. repeat split; [assumption | discriminate].
  - destruct (Z.eqb_spec (strlen arg) 1); cbn [negb]; [|discriminate].
    intros [= <-]. right. cbn. repeat split; tauto.
  - destruct (Z.eqb_spec (mode o) 0); cbn [negb]; [|discriminate].
    intros [= <-]. left. cbn. repeat split; [assumption | discriminate].
  - intros [= <-]. right. cbn. repeat split; [discriminate | tauto].
  - intros [= <-]. right. cbn. repeat split; [discriminate | tauto].
  - discriminate.
Qed.

(** The loop ends without a diagnostic: every [-d] had one character, and
    [mode] is set exactly when one list option was seen, which was the
    only one. *)
Lemma option_loop_inr (evs : list (Z * list ascii)) :
  forall o o',
    option_loop evs o = inr o' ->
    strlen (delimiter o) = 1 ->
    ~ Exists is_bad_delimiter evs /\
    strlen (delimiter o') = 1 /\
    (mode o = 0 ->
     (mode o' = 0 /\ length (filter is_list_option evs) = 0%nat) \/
     (mode o' <> 0 /\ length (filter is_list_option evs) = 1%nat)) /\
    (mode o <> 0 ->
     mode o' = mode o /\ length (filter is_list_option evs) = 0%nat).
Proof.
  induction evs as [|ev rest IH]; intros o o' Hloop Hdel.
  - injection Hloop as <-. cbn. repeat split; try tauto.
    intros H; inversion H.
  - cbn [option_loop] in Hloop.
    destruct (option_step o ev) as [d|o1] eqn:Hstep; [discriminate|].
    apply option_step_inr in Hstep.
    assert (Hdel1 : strlen (delimiter o1) = 1).
    { destruct Hstep as [[_ [_ [_ ->]]] | [_ [_ [Hd Hnd]]]]; [exact Hdel|].
      destruct (Z.eq_dec (fst ev) (chr "d")) as [E|E].
      - destruct (Hd E) as [Hl ->]. exact Hl.
      - now rewrite (Hnd E). }
    destruct (IH o1 o' Hloop Hdel1) as [Hbad [Hdel' [Hzero Hset]]].
    split; [|split; [exact Hdel'|]].
    + intros H. apply Exists_cons in H. destruct H as [[Hd Hl] | H]; [|tauto].
      destruct Hstep as [[Hlist _] | [_ [_ [Hd1 _]]]].
      * unfold is_list_option in Hlist. rewrite Hd in Hlist. discriminate.
      * destruct (Hd1 Hd). contradiction.
    + cbn [filter].
      destruct Hstep as [[-> [Hm [Hm1 _]]] | [-> [Hm1 _]]]; cbn [length].
      * split; [|tauto]. intros _. right.
        destruct (Hset Hm1) as [-> ->]. tauto.
      * rewrite Hm1 in Hzero, Hset. exact (conj Hzero Hset).
Qed.

End Options.

(** C9.  When none of [-b], [-c] and [-f] is given, when more than one of
    them is given, or when the argument of a [-d] is not one character
    long, [cut] returns [EX_USAGE] and has written nothing to the standard
    output (and read nothing). *)
Theorem usage_errors
  (fopen : list ascii -> option (list ascii)) (input : list ascii)
  (evs : list (Z * list ascii)) (loptend : list (list ascii)) :
  (length (filter is_list_option evs) = 0)%nat \/
  (2 <= length (filter is_list_option evs))%nat \/
  Exists is_bad_delimiter evs ->
  status (cut_builtin fopen input evs loptend) = EX_USAGE /\
  stdout (cut_builtin fopen input evs loptend) = [] /\
  stdin (cut_builtin fopen input evs loptend) = input.
Proof.
  intros H. unfold cut_builtin.
  destruct (option_loop evs initial_options) as [d|o] eqn:Hloop;
    [repeat split|].
  destruct (option_loop_inr evs initial_options o Hloop eq_refl)
    as [Hbad [_ [Hzero _]]].
  specialize (Hzero eq_refl).
  destruct (Z.eqb_spec (mode o) 0) as [Hm|Hm]; [repeat split|].
  exfalso. destruct H as [H | [H | H]]; [lia | lia | contradiction].
Qed.

Lemma usage_errors_witness :
  ((length (filter is_list_option [opt "b" "1"; opt "f" "2"]) = 0)%nat \/
   (2 <= length (filter is_list_option [opt "b" "1"; opt "f" "2"]))%nat \/
   Exists is_bad_delimiter [opt "b" "1"; opt "f" "2"]) /\
  status (cut_builtin no_file (bytes "a,b") [opt "b" "1"; opt "f" "2"] [])
  = EX_USAGE /\
  stdout (cut_builtin no_file (bytes "a,b") [opt "b" "1"; opt "f" "2"] [])
  = [] /\
  stdin (cut_builtin no_file (bytes "a,b") [opt "b" "1"; opt "f" "2"] [])
  = bytes "a,b".
Proof.
  assert (H : (length (filter is_list_option [opt "b" "1"; opt "f" "2"]) = 0)%nat \/
              (2 <= length (filter is_list_option [opt "b" "1"; opt "f" "2"]))%nat \/
              Exists is_bad_delimiter [opt "b" "1"; opt "f" "2"]).
  { right. left. vm_compute. constructor. }
  split; [exact H|].
  exact (usage_errors no_file (bytes "a,b") [opt "b" "1"; opt "f" "2"] [] H).
Defined.

Example usage_error_cases :
  status (cut_builtin no_file [] [opt "s" ""; opt "z" ""] []) = EX_USAGE /\
  status (cut_builtin no_file [] [opt "f" "1"; opt "d" "ab"] []) = EX_USAGE /\
  status (cut_builtin no_file [] [opt "f" "1"; opt "d" ""] []) = EX_USAGE /\
  status (cut_builtin no_file [] [opt "c" "1"; opt "c" "2"] []) = EX_USAGE /\
  status (cut_builtin no_file [] [opt "f" "1"; opt "d" ","] []) = EXECUTION_SUCCESS.
Proof. repeat split. Qed.

(** ** The file operands *)

Section Files.

Variable fopen : list ascii -> option (list ascii).
Variable o : options.
Variable ranges : list Range.

Lemma cut_files_diagnostics (files : list (list ascii)) :
  forall st,
    stderr (cut_files fopen o ranges files st)
    = stderr st ++ map cannot_open (filter (unopenable fopen) files) /\
    status (cut_files fopen o ranges files st)
    = if existsb (unopenable fopen) files then EXECUTION_FAILURE
      else status st.
Proof.
  induction files as [|f next IH]; intros st.
  - cbn. now rewrite app_nil_r.
  - cbn [cut_files filter existsb].
    assert (Hun : unopenable fopen f
                  = negb (is_dash f) &&
                    match fopen f with None => true | Some _ => false end)
      by reflexivity.
    destruct (is_dash f); cbn [negb andb] in Hun.
    + rewrite Hun. cbn [orb].
      destruct (IH {| status := status st;
                      stdout := stdout st ++ cut_stream o ranges (stdin st);
                      stderr := stderr st; stdin := [] |}) as [-> ->].
      split; reflexivity.
    + destruct (fopen f) as [fp|]; rewrite Hun; cbn [orb].
      * destruct (IH {| status := status st;
                        stdout := stdout st ++ cut_stream o ranges fp;
                        stderr := stderr st; stdin := stdin st |}) as [-> ->].
        split; reflexivity.
      * destruct (IH {| status := EXECUTION_FAILURE; stdout := stdout st;
                        stderr := stderr st ++ [cannot_open f];
                        stdin := stdin st |}) as [-> ->].
        cbn [stderr status map]. rewrite <- app_assoc. split; [reflexivity|].
        now destruct (existsb (unopenable fopen) next).
Qed.

Lemma cut_files_output (files : list (list ascii)) :
  Forall (fun f => is_dash f = false) files ->
  forall st,
    stdout (cut_files fopen o ranges files st)
    = stdout st ++ flat_map (source_output fopen o ranges) files /\
    stdin (cut_files fopen o ranges files st) = stdin st.
Proof.
  induction 1 as [|f next Hf Hnext IH]; intros st.
  - cbn. now rewrite app_nil_r.
  - cbn [cut_files flat_map]. rewrite Hf.
    change (source_output fopen o ranges f)
      with (match fopen f with
            | Some fp => cut_stream o ranges fp
            | None => []
            end).
    destruct (fopen f) as [fp|].
    + destruct (IH {| status := status st;
                      stdout := stdout st ++ cut_stream o ranges fp;
                      stderr := stderr st; stdin := stdin st |}) as [-> ->].
      cbn [stdout stdin]. now rewrite <- app_assoc.
    + destruct (IH {| status := EXECUTION_FAILURE; stdout := stdout st;
                      stderr := stderr st ++ [cannot_open f];
                      stdin := stdin st |}) as [-> ->].
      split; reflexivity.
Qed.

End Files.

(** C7.  With options that are accepted and a list of named files, the
    standard output is what the files that can be opened write, each its
    whole projection, in the order of the list; each file that cannot be
    opened adds its diagnostic and nothing else; the status is
    [EXECUTION_FAILURE] exactly when one of the files could not be
    opened, and [EXECUTION_SUCCESS] otherwise. *)
Theorem unopenable_files_are_skipped
  (fopen : list ascii -> option (list ascii)) (input : list ascii)
  (evs : list (Z * list ascii)) (files : list (list ascii)) (o : options) :
  option_loop evs initial_options = inr o ->
  mode o <> 0 ->
  parse_ranges (range_list o) <> [] ->
  files <> [] ->
  Forall (fun f => is_dash f = false) files ->
  stdout (cut_builtin fopen input evs files)
  = flat_map (source_output fopen o (parse_ranges (range_list o))) files /\
  stderr (cut_builtin fopen input evs files)
  = map cannot_open (filter (fun f => match fopen f with
                                      | None => true
                                      | Some _ => false
                                      end) files) /\
  (status (cut_builtin fopen input evs files) = EXECUTION_FAILURE
   <-> exists f, In f files /\ fopen f = None) /\
  (status (cut_builtin fopen input evs files) = EXECUTION_SUCCESS
   <-> forall f, In f files -> fopen f <> None).
Proof.
  intros Hloop Hmode Hranges Hfiles Hnamed. unfold cut_builtin. rewrite Hloop.
  destruct (Z.eqb_spec (mode o) 0) as [|_]; [contradiction|].
  destruct (parse_ranges (range_list o)) as [|r rs] eqn:Hr; [contradiction|].
  destruct files as [|f0 fs] eqn:Hfs; [contradiction|]. rewrite <- Hfs in *.
  clear Hfs Hfiles.
  set (st := {| status := EXECUTION_SUCCESS; stdout := []; stderr := [];
                stdin := input |}).
  destruct (cut_files_output fopen o (r :: rs) files Hnamed st) as [Hout _].
  destruct (cut_files_diagnostics fopen o (r :: rs) files st) as [Herr Hst].
  assert (Hun : forall f, In f files ->
                  unopenable fopen f
                  = match fopen f with None => true | Some _ => false end).
  { intros f Hin. unfold unopenable. rewrite Forall_forall in Hnamed.
    now rewrite (Hnamed f Hin). }
  split; [exact Hout|]. split.
  { rewrite Herr. cbn [stderr st app]. f_equal. now apply filter_ext_in. }
  rewrite Hst. cbn [status st].
  destruct (existsb (unopenable fopen) files) eqn:Hex.
  - apply existsb_exists in Hex. destruct Hex as [f [Hin Hf]].
    rewrite (Hun f Hin) in Hf.
    split; split; try discriminate.
    + intros _. exists f. split; [exact Hin|]. now destruct (fopen f).
    + reflexivity.
    + intros Hall. specialize (Hall f Hin). now destruct (fopen f).
  - split; split; try discriminate; try reflexivity.
    + intros [f [Hin Hf]]. exfalso.
      assert (Ht : existsb (unopenable fopen) files = true).
      { apply existsb_exists. exists f. split; [exact Hin|].
        rewrite (Hun f Hin). now rewrite Hf. }
      congruence.
    + intros _ f Hin Hf.
      assert (Ht : existsb (unopenable fopen) files = true).
      { apply existsb_exists. exists f. split; [exact Hin|].
        rewrite (Hun f Hin). now rewrite Hf. }
      congruence.
Qed.

Lemma unopenable_files_are_skipped_witness :
  option_loop [opt "d" ","; opt "f" "2"] initial_options
  = inr {| mode := chr "f"; range_list := bytes "2"; delimiter := bytes ",";
           suppress_no_delim := false; line_delim := LF |} /\
  stdout (cut_builtin (one_file (bytes "data") (bytes "a,b,c" ++ [LF])) []
                      [opt "d" ","; opt "f" "2"]
                      [bytes "missing"; bytes "data"])
  = bytes "b" ++ [LF] /\
  stderr (cut_builtin (one_file (bytes "data") (bytes "a,b,c" ++ [LF])) []
                      [opt "d" ","; opt "f" "2"]
                      [bytes "missing"; bytes "data"])
  = [cannot_open (bytes "missing")] /\
  (status (cut_builtin (one_file (bytes "data") (bytes "a,b,c" ++ [LF])) []
                       [opt "d" ","; opt "f" "2"]
                       [bytes "missing"; bytes "data"])
   = EXECUTION_FAILURE
   <-> exists f, In f [bytes "missing"; bytes "data"] /\
                 one_file (bytes "data") (bytes "a,b,c" ++ [LF]) f = None) /\
  (status (cut_builtin (one_file (bytes "data") (bytes "a,b,c" ++ [LF])) []
                       [opt "d" ","; opt "f" "2"]
                       [bytes "missing"; bytes "data"])
   = EXECUTION_SUCCESS
   <-> forall f, In f [bytes "missing"; bytes "data"] ->
                 one_file (bytes "data") (bytes "a,b,c" ++ [LF]) f <> None).
Proof.
  split; [reflexivity|].
  apply (unopenable_files_are_skipped
           (one_file (bytes "data") (bytes "a,b,c" ++ [LF])) []
           [opt "d" ","; opt "f" "2"] [bytes "missing"; bytes "data"]
           {| mode := chr "f"; range_list := bytes "2"; delimiter := bytes ",";
              suppress_no_delim := false; line_delim := LF |}).
  - reflexivity.
  - vm_compute. discriminate.
  - vm_compute. discriminate.
  - discriminate.
  - repeat constructor.
Defined.

(** ** The terminator *)

Section Terminator.

Lemma terminated_app (ld : ascii) (b1 b2 : list (list ascii)) :
  terminated ld (b1 ++ b2) = terminated ld b1 ++ terminated ld b2.
Proof. apply flat_map_app. Qed.

Lemma cut_fields_line_bodies (ranges : list Range) (delim : list ascii)
  (suppress : bool) (line : list ascii) :
  strlen delim = 1 ->
  is_line line ->
  exists bodies,
    Forall is_body bodies /\
    forall ld, cut_fields_line ranges delim suppress ld line
               = terminated ld bodies.
Proof.
  intros Hlen Hline.
  destruct (strlen_one delim Hlen) as [d [Hcs [Hd Hfb]]].
  pose proof (is_line_chomp line Hline) as Hlf.
  assert (Hstr : is_body (cstr (chomp line))).
  { split; [|apply cstr_not_NUL]. intros H. apply Hlf. now apply cstr_incl. }
  unfold cut_fields_line. rewrite Hfb.
  destruct (strchr (chomp line) d) as [n|] eqn:Hs.
  - destruct (cut_fields_scan ranges delim
                (tokens (cstr delim) (strdup (chomp line))) 1 true)
      as [out fo] eqn:Hscan.
    destruct fo.
    + pose proof (cut_fields_scan_first_output ranges delim
                    (tokens (cstr delim) (strdup (chomp line))) 1 true) as Hfo.
      rewrite Hscan in Hfo. specialize (Hfo eq_refl). injection Hfo as ->.
      exists []. split; [constructor | reflexivity].
    + exists [out]. split; [|intros ld; cbn; now rewrite app_nil_r].
      constructor; [|constructor].
      assert (Hin : In d (cstr (chomp line))).
      { destruct (in_dec ascii_dec d (cstr (chomp line))) as [H|H];
          [exact H|]. apply (strchr_None _ _ Hd) in H. congruence. }
      assert (Hc : forall c, In c out -> In c (cstr (chomp line))).
      { intros c Hc.
        pose proof (cut_fields_scan_sound ranges delim
                      (tokens (cstr delim) (strdup (chomp line))) c 1 true) as H.
        rewrite Hscan in H. destruct (H Hc) as [H1 | [t [Ht H1]]].
        - rewrite Hcs in H1. destruct H1 as [<- | []]. exact Hin.
        - destruct (tokens_sound _ _ _ _ Ht H1) as [H2 _]. exact H2. }
      destruct Hstr as [Hs1 Hs2]. split; intros H; apply Hc in H; tauto.
  - destruct suppress.
    + exists []. split; [constructor | reflexivity].
    + exists [cstr (chomp line)]. split; [now constructor|].
      intros ld. cbn. now rewrite app_nil_r.
Qed.

Lemma flat_map_bodies (f : ascii -> list ascii -> list ascii)
  (lines : list (list ascii)) :
  Forall (fun l => exists bodies,
              Forall is_body bodies /\
              forall ld, f ld l = terminated ld bodies) lines ->
  exists bodies,
    Forall is_body bodies /\
    forall ld, flat_map (f ld) lines = terminated ld bodies.
Proof.
  induction 1 as [|l ls [b [Hb Hl]] _ [bs [Hbs Hls]]].
  - exists []. split; [constructor | reflexivity].
  - exists (b ++ bs). split; [now apply Forall_app|].
    intros ld. cbn [flat_map]. now rewrite Hl, Hls, terminated_app.
Qed.

Lemma cut_stream_bodies (o : options) (ranges : list Range) (fp : list ascii) :
  strlen (delimiter o) = 1 ->
  exists bodies,
    Forall is_body bodies /\
    forall ld, cut_stream (with_line_delim ld o) ranges fp
               = terminated ld bodies.
Proof.
  intros Hlen. unfold cut_stream, cut_fields, cut_bytes. cbn [with_line_delim
    mode delimiter suppress_no_delim line_delim].
  destruct (mode o =? chr "f").
  - apply (flat_map_bodies
             (fun ld => cut_fields_line ranges (delimiter o)
                          (suppress_no_delim o) ld)).
    eapply Forall_impl; [|apply read_lines_are_lines].
    intros l Hl. now apply cut_fields_line_bodies.
  - apply (flat_map_bodies (fun ld => cut_bytes_line ranges ld)).
    apply Forall_forall. intros l _.
    exists [cut_bytes_scan ranges l 1].
    split; [constructor; [apply cut_bytes_scan_is_body | constructor]|].
    intros ld. unfold cut_bytes_line. cbn. now rewrite app_nil_r.
Qed.

End Terminator.

Section TerminatorOption.

Lemma option_step_z (o : options) (arg : list ascii) :
  option_step o (chr "z", arg) = inr (with_line_delim NUL o).
Proof. reflexivity. Qed.

Lemma option_step_with_line_delim (ld : ascii) (o : options)
  (ev : Z * list ascii) :
  fst ev <> chr "z" ->
  option_step (with_line_delim ld o) ev = lift_line_delim ld (option_step o ev).
Proof.
  destruct ev as [opt arg]. cbn [fst]. intros Hz.
  unfold option_step. cbn [with_line_delim mode range_list delimiter
                           suppress_no_delim line_delim].
  destruct ((opt =? chr "b") || (opt =? chr "c")).
  { destruct (negb (mode o =? 0)); reflexivity. }
  destruct (opt =? chr "d").
  { destruct (negb (strlen arg =? 1)); reflexivity. }
  destruct (opt =? chr "f").
  { destruct (negb (mode o =? 0)); reflexivity. }
  destruct (opt =? chr "s"); [reflexivity|].
  destruct (Z.eqb_spec opt (chr "z")); [contradiction | reflexivity].
Qed.

Lemma option_step_line_delim (o o' : options) (ev : Z * list ascii) :
  fst ev <> chr "z" -> option_step o ev = inr o' -> line_delim o' = line_delim o.
Proof.
  destruct ev as [opt arg]. cbn [fst]. intros Hz.
  unfold option_step.
  destruct ((opt =? chr "b") || (opt =? chr "c")).
  { destruct (negb (mode o =? 0)); [discriminate | now intros [= <-]]. }
  destruct (opt =? chr "d").
  { destruct (negb (strlen arg =? 1)); [discriminate | now intros [= <-]]. }
  destruct (opt =? chr "f").
  { destruct (negb (mode o =? 0)); [discriminate | now intros [= <-]]. }
  destruct (opt =? chr "s"); [now intros [= <-]|].
  destruct (Z.eqb_spec opt (chr "z")); [contradiction | discriminate].
Qed.

Lemma option_loop_with_line_delim (ld : ascii) (evs : list (Z * list ascii)) :
  Forall (fun ev => fst ev <> chr "z") evs ->
  forall o, option_loop evs (with_line_delim ld o)
            = lift_line_delim ld (option_loop evs o).
Proof.
  induction 1 as [|ev rest Hev _ IH]; intros o; [reflexivity|].
  cbn [option_loop]. rewrite option_step_with_line_delim by exact Hev.
  destruct (option_step o ev) as [d|o1]; [reflexivity | apply IH].
Qed.

Lemma option_loop_line_delim (evs : list (Z * list ascii)) :
  Forall (fun ev => fst ev <> chr "z") evs ->
  forall o o', option_loop evs o = inr o' -> line_delim o' = line_delim o.
Proof.
  induction 1 as [|ev rest Hev _ IH]; intros o o'; cbn [option_loop].
  - now intros [= <-].
  - destruct (option_step o ev) as [d|o1] eqn:Hstep; [discriminate|].
    intros Hloop. rewrite (IH o1 o' Hloop).
    exact (option_step_line_delim o o1 ev Hev Hstep).
Qed.

Lemma option_loop_app (evs1 evs2 : list (Z * list ascii)) :
  forall o, option_loop (evs1 ++ evs2) o
            = match option_loop evs1 o with
              | inl d => inl d
              | inr o1 => option_loop evs2 o1
              end.
Proof.
  induction evs1 as [|ev rest IH]; intros o; [reflexivity|].
  cbn [app option_loop].
  destruct (option_step o ev) as [d|o1]; [reflexivity | apply IH].
Qed.

(** The loop with a [-z] put in: the same end, but for the terminator. *)
Lemma option_loop_insert_z (evs1 evs2 : list (Z * list ascii))
  (arg : list ascii) (o : options) :
  Forall (fun ev => fst ev <> chr "z") evs2 ->
  option_loop (evs1 ++ (chr "z", arg) :: evs2) o
  = lift_line_delim NUL (option_loop (evs1 ++ evs2) o).
Proof.
  intros Hz. rewrite !option_loop_app.
  destruct (option_loop evs1 o) as [d|o1]; [reflexivity|].
  cbn [option_loop]. rewrite option_step_z.
  now apply option_loop_with_line_delim.
Qed.

Lemma with_line_delim_same (o : options) :
  with_line_delim (line_delim o) o = o.
Proof. now destruct o. Qed.

Variable fopen : list ascii -> option (list ascii).
Variable ranges : list Range.
Variables ld1 ld2 : ascii.

Lemma cut_files_terminator (o : options) (files : list (list ascii)) :
  strlen (delimiter o) = 1 ->
  forall st1 st2,
    same_but_terminator ld1 ld2 st1 st2 ->
    same_but_terminator ld1 ld2
      (cut_files fopen (with_line_delim ld1 o) ranges files st1)
      (cut_files fopen (with_line_delim ld2 o) ranges files st2).
Proof.
  intros Hlen. induction files as [|f next IH]; intros st1 st2 Hst;
    [exact Hst|].
  destruct Hst as [Hs [He [Hi [bodies [Hb [Ho1 Ho2]]]]]].
  cbn [cut_files]. destruct (is_dash f).
  - destruct (cut_stream_bodies o ranges (stdin st1) Hlen) as [bs [Hbs Hcut]].
    apply IH. repeat split; cbn; try assumption.
    exists (bodies ++ bs). split; [now apply Forall_app|].
    rewrite !terminated_app, Ho1, Ho2, <- Hi, !Hcut. split; reflexivity.
  - destruct (fopen f) as [fp|].
    + destruct (cut_stream_bodies o ranges fp Hlen) as [bs [Hbs Hcut]].
      apply IH. repeat split; cbn; try assumption.
      exists (bodies ++ bs). split; [now apply Forall_app|].
      rewrite !terminated_app, Ho1, Ho2, !Hcut. split; reflexivity.
    + apply IH. repeat split; cbn; try assumption.
      * now rewrite He.
      * exists bodies. tauto.
Qed.

End TerminatorOption.

(** C8.  A [-z] among the options changes the terminator written and
    nothing else: the run without it and the run with it end with the same
    status, the same diagnostics and the same input left, and write the
    same bodies, in which there is neither a newline nor a NUL byte, each
    followed by a newline without [-z] and by a NUL byte with it.  The
    lines are those [getline] cuts at the newlines in both runs. *)
Theorem z_changes_only_the_terminator
  (fopen : list ascii -> option (list ascii)) (input : list ascii)
  (evs1 evs2 : list (Z * list ascii)) (arg : list ascii)
  (files : list (list ascii)) :
  Forall (fun ev => fst ev <> chr "z") (evs1 ++ evs2) ->
  same_but_terminator LF NUL
    (cut_builtin fopen input (evs1 ++ evs2) files)
    (cut_builtin fopen input (evs1 ++ (chr "z", arg) :: evs2) files).
Proof.
  intros Hz. pose proof Hz as Hz2. apply Forall_app in Hz2.
  destruct Hz2 as [_ Hz2].
  assert (Husage : forall d,
             same_but_terminator LF NUL (usage_error d input)
                                 (usage_error d input)).
  { intros d. repeat split. exists []. repeat split. constructor. }
  unfold cut_builtin. rewrite option_loop_insert_z by exact Hz2.
  destruct (option_loop (evs1 ++ evs2) initial_options) as [d|o] eqn:Hloop;
    cbn [lift_line_delim]; [apply Husage|].
  pose proof (option_loop_line_delim _ Hz _ _ Hloop) as Hld.
  cbn [initial_options line_delim] in Hld.
  destruct (option_loop_inr _ _ _ Hloop eq_refl) as [_ [Hlen _]].
  cbn [with_line_delim mode range_list].
  destruct (mode o =? 0); [apply Husage|].
  destruct (parse_ranges (range_list o)) as [|r rs]; [apply Husage|].
  assert (Ho : with_line_delim LF o = o).
  { rewrite <- Hld. apply with_line_delim_same. }
  destruct files as [|f fs].
  - destruct (cut_stream_bodies o (r :: rs) input Hlen) as [bs [Hbs Hcut]].
    repeat split. cbn [stdout]. exists bs.
    split; [exact Hbs|]. split; [|apply Hcut].
    rewrite <- (Hcut LF), Ho. reflexivity.
  - set (st := {| status := EXECUTION_SUCCESS; stdout := []; stderr := [];
                  stdin := input |}).
    assert (Hst : same_but_terminator LF NUL st st).
    { repeat split. exists []. repeat split. constructor. }
    pose proof (cut_files_terminator fopen (r :: rs) LF NUL o (f :: fs)
                  Hlen st st Hst) as H.
    rewrite Ho in H. exact H.
Qed.

Lemma z_changes_only_the_terminator_witness :
  Forall (fun ev => fst ev <> chr "z") ([opt "d" ","] ++ [opt "f" "2"]) /\
  same_but_terminator LF NUL
    (cut_builtin no_file (bytes "a,b" ++ [LF] ++ bytes "c,d" ++ [LF])
                 ([opt "d" ","] ++ [opt "f" "2"]) [])
    (cut_builtin no_file (bytes "a,b" ++ [LF] ++ bytes "c,d" ++ [LF])
                 ([opt "d" ","] ++ opt "z" "" :: [opt "f" "2"]) []).
Proof.
  assert (H : Forall (fun ev => fst ev <> chr "z")
                     ([opt "d" ","] ++ [opt "f" "2"])).
  { repeat constructor; vm_compute; discriminate. }
  split; [exact H|].
  exact (z_changes_only_the_terminator
           no_file (bytes "a,b" ++ [LF] ++ bytes "c,d" ++ [LF])
           [opt "d" ","] [opt "f" "2"] (bytes "") [] H).
Defined.

Example z_splits_input_at_newlines :
  stdout (cut_builtin no_file (bytes "a,b" ++ [LF] ++ bytes "c,d" ++ [LF])
                      [opt "d" ","; opt "z" ""; opt "f" "2"] [])
  = bytes "b" ++ [NUL] ++ bytes "d" ++ [NUL] /\
  stdout (cut_builtin no_file (bytes "ab" ++ [NUL] ++ bytes "cd" ++ [LF])
                      [opt "z" ""; opt "b" "1"] [])
  = bytes "a" ++ [NUL].
Proof. split; reflexivity. Qed.

(** * Further properties of the code *)

(** ** Selector lists: tokens, composition, order *)

Section SelectorComposition.

Lemma split_every_not_nil (d : ascii) (s : list ascii) : split_every d s <> [].
Proof.
  destruct s as [|c rest]; simpl; [discriminate|].
  destruct (c =? d)%char; [discriminate|].
  destruct (split_every d rest); discriminate.
Qed.

Lemma split_every_app (d : ascii) (s1 s2 : list ascii) :
  split_every d (s1 ++ d :: s2) = split_every d s1 ++ split_every d s2.
Proof.
  induction s1 as [|c rest IH]; simpl.
  - now rewrite Ascii.eqb_refl.
  - destruct (c =? d)%char; [now rewrite IH|].
    rewrite IH. pose proof (split_every_not_nil d rest) as Hne.
    destruct (split_every d rest) as [|f fs]; [contradiction | reflexivity].
Qed.

Lemma tokens_app_delim (d : ascii) (s1 s2 : list ascii) :
  tokens [d] (s1 ++ d :: s2) = tokens [d] s1 ++ tokens [d] s2.
Proof.
  now rewrite !tokens_split_every, split_every_app, filter_app.
Qed.

Lemma tokens_nil_iff (d : ascii) (s : list ascii) :
  tokens [d] s = [] <-> Forall (fun c => c = d) s.
Proof.
  induction s as [|c rest IH]; [split; [constructor | reflexivity]|].
  assert (Hd : is_delim [d] c = (c =? d)%char).
  { unfold is_delim. simpl. apply orb_false_r. }
  rewrite tokens_cons, Hd.
  destruct (Ascii.eqb_spec c d) as [->|Hc].
  - rewrite IH. split; [now constructor | intros H; now inversion H].
  - split.
    + intros H. exfalso. destruct rest as [|c' rest']; [discriminate H|].
      destruct (is_delim [d] c'); [discriminate H|].
      destruct (tokens [d] (c' :: rest')); discriminate H.
    + intros H. inversion H; contradiction.
Qed.

Lemma cstr_app (s1 s2 : list ascii) :
  ~ In NUL s1 -> cstr (s1 ++ s2) = s1 ++ cstr s2.
Proof.
  induction s1 as [|c rest IH]; intros H; [reflexivity|].
  simpl. destruct (Ascii.eqb_spec c NUL) as [->|Hc]; [simpl in H; tauto|].
  f_equal. apply IH. simpl in H. tauto.
Qed.

Lemma in_range_app (r1 r2 : list Range) (p : Z) :
  in_range (r1 ++ r2) p = in_range r1 p || in_range r2 p.
Proof.
  induction r1 as [|r next IH]; simpl; [reflexivity|].
  now destruct ((start r <=? p) && (p <=? end_ r)).
Qed.

(** X1.  [parse_ranges] returns the null pointer exactly for a selector
    list without a token: one made of commas only, the empty list among
    them. *)
Theorem parse_ranges_null_iff (list_str : list ascii) :
  parse_ranges list_str = [] <-> Forall (fun c => c = ",") (cstr list_str).
Proof.
  unfold parse_ranges, strdup. rewrite <- tokens_nil_iff.
  destruct (tokens [","] (cstr list_str)); simpl; split;
    (reflexivity || discriminate).
Qed.

Lemma parse_ranges_app_comma (s1 s2 : list ascii) :
  ~ In NUL s1 ->
  parse_ranges (s1 ++ "," :: s2) = parse_ranges s1 ++ parse_ranges s2.
Proof.
  intros Hnul. unfold parse_ranges, strdup. rewrite cstr_app by exact Hnul.
  rewrite (cstr_id s1 Hnul). cbn [cstr Ascii.eqb Bool.eqb NUL].
  now rewrite tokens_app_delim, map_app.
Qed.

Lemma in_range_parse_comma (s1 s2 : list ascii) (p : Z) :
  ~ In NUL s1 ->
  in_range (parse_ranges (s1 ++ "," :: s2)) p
  = in_range (parse_ranges s1) p || in_range (parse_ranges s2) p.
Proof.
  intros Hnul. now rewrite parse_ranges_app_comma, in_range_app.
Qed.

(** X2.  A comma composes selector lists: the ranges of [s1,s2] are those
    of [s1] followed by those of [s2], and a position is in range for
    [s1,s2] exactly when it is for [s1] or for [s2]. *)
Theorem parse_ranges_comma (s1 s2 : list ascii) :
  ~ In NUL s1 ->
  parse_ranges (s1 ++ "," :: s2) = parse_ranges s1 ++ parse_ranges s2 /\
  forall p, in_range (parse_ranges (s1 ++ "," :: s2)) p
            = in_range (parse_ranges s1) p || in_range (parse_ranges s2) p.
Proof.
  intros Hnul. split; [now apply parse_ranges_app_comma|].
  intros p. now apply in_range_parse_comma.
Qed.

Lemma parse_ranges_comma_witness :
  ~ In NUL (bytes "1-2") /\
  parse_ranges (bytes "1-2" ++ "," :: bytes "7")
  = parse_ranges (bytes "1-2") ++ parse_ranges (bytes "7") /\
  forall p, in_range (parse_ranges (bytes "1-2" ++ "," :: bytes "7")) p
            = in_range (parse_ranges (bytes "1-2")) p
              || in_range (parse_ranges (bytes "7")) p.
Proof.
  assert (H : ~ In NUL (bytes "1-2")).
  { simpl. intros H. repeat (destruct H as [H|H]; [discriminate H|]). exact H. }
  split; [exact H|].
  exact (parse_ranges_comma (bytes "1-2") (bytes "7") H).
Defined.

End SelectorComposition.

Section SelectorOrder.

Variables r1 r2 : list Range.
Hypothesis same : forall p, in_range r1 p = in_range r2 p.

Lemma cut_bytes_scan_ext (line : list ascii) :
  forall pos, cut_bytes_scan r1 line pos = cut_bytes_scan r2 line pos.
Proof.
  induction line as [|c rest IH]; intros pos; simpl; [reflexivity|].
  now rewrite same, IH.
Qed.

Lemma cut_fields_scan_ext (delim : list ascii) (toks : list (list ascii)) :
  forall field fo,
    cut_fields_scan r1 delim toks field fo
    = cut_fields_scan r2 delim toks field fo.
Proof.
  induction toks as [|t next IH]; intros field fo; simpl; [reflexivity|].
  now rewrite same, !IH.
Qed.

Lemma cut_stream_ext (o : options) (fp : list ascii) :
  cut_stream o r1 fp = cut_stream o r2 fp.
Proof.
  unfold cut_stream, cut_fields, cut_bytes.
  destruct (mode o =? chr "f"); apply flat_map_ext; intros line.
  - unfold cut_fields_line. now rewrite cut_fields_scan_ext.
  - unfold cut_bytes_line. now rewrite cut_bytes_scan_ext.
Qed.

End SelectorOrder.

(** X3.  The order of the parts of a selector list and their repetition
    do not matter: a stream is cut by [s1,s2] as it is by [s2,s1], and by
    [s,s] as it is by [s], in byte mode and in field mode. *)
Theorem selector_order_is_irrelevant
  (o : options) (s1 s2 : list ascii) (fp : list ascii) :
  ~ In NUL s1 -> ~ In NUL s2 ->
  cut_stream o (parse_ranges (s1 ++ "," :: s2)) fp
  = cut_stream o (parse_ranges (s2 ++ "," :: s1)) fp /\
  cut_stream o (parse_ranges (s1 ++ "," :: s1)) fp
  = cut_stream o (parse_ranges s1) fp.
Proof.
  intros H1 H2. split; apply cut_stream_ext; intros p.
  - rewrite !in_range_parse_comma by assumption. apply orb_comm.
  - rewrite in_range_parse_comma by assumption. apply orb_diag.
Qed.

Lemma selector_order_is_irrelevant_witness :
  ~ In NUL (bytes "3") /\ ~ In NUL (bytes "1") /\
  cut_stream initial_options (parse_ranges (bytes "3" ++ "," :: bytes "1"))
             (bytes "abc" ++ [LF])
  = cut_stream initial_options (parse_ranges (bytes "1" ++ "," :: bytes "3"))
               (bytes "abc" ++ [LF]) /\
  cut_stream initial_options (parse_ranges (bytes "3" ++ "," :: bytes "3"))
             (bytes "abc" ++ [LF])
  = cut_stream initial_options (parse_ranges (bytes "3")) (bytes "abc" ++ [LF]).
Proof.
  assert (H1 : ~ In NUL (bytes "3")).
  { simpl. intros H. repeat (destruct H as [H|H]; [discriminate H|]). exact H. }
  assert (H2 : ~ In NUL (bytes "1")).
  { simpl. intros H. repeat (destruct H as [H|H]; [discriminate H|]). exact H. }
  split; [exact H1 | split; [exact H2|]].
  exact (selector_order_is_irrelevant initial_options (bytes "3") (bytes "1")
           (bytes "abc" ++ [LF]) H1 H2).
Defined.

Lemma strtol_plain_head (c : ascii) (rest : list ascii) :
  isspace c = false -> isdigit c = false -> c <> "-" -> c <> "+" ->
  strtol (c :: rest) = 0.
Proof.
  destruct c as [[] [] [] [] [] [] [] []]; intros Hs Hd Hm Hp;
    try discriminate Hs; try discriminate Hd;
    try (exfalso; apply Hm; reflexivity);
    try (exfalso; apply Hp; reflexivity);
    reflexivity.
Qed.

(** X4.  A token that is not a number is taken for 0: when it holds no
    dash and begins with a byte that is neither white space, a sign nor a
    digit, its range is (0,0), in which no position from 1 on lies.  The
    parser reports no error for it. *)
Theorem non_numeric_token_is_zero (c : ascii) (rest : list ascii) :
  isspace c = false -> isdigit c = false -> c <> "+" -> c <> NUL ->
  strchr (c :: rest) "-" = None ->
  parse_token (c :: rest) = {| start := 0; end_ := 0 |} /\
  forall p, 1 <= p -> in_range [parse_token (c :: rest)] p = false.
Proof.
  intros Hs Hd Hp Hn Hdash.
  assert (Hm : c <> "-").
  { intros ->. discriminate Hdash. }
  assert (Ha : atoi (c :: rest) = 0).
  { unfold atoi. cbn [cstr].
    destruct (Ascii.eqb_spec c NUL); [contradiction|].
    now rewrite strtol_plain_head. }
  assert (Ht : parse_token (c :: rest) = {| start := 0; end_ := 0 |}).
  { unfold parse_token. now rewrite Hdash, Ha. }
  split; [exact Ht|]. intros p Hp1. rewrite Ht. cbn [in_range start end_].
  destruct (Z.leb_spec p 0); [lia|]. now rewrite andb_false_r.
Qed.

Lemma non_numeric_token_is_zero_witness :
  isspace "x" = false /\ isdigit "x" = false /\ "x" <> "+" /\ "x" <> NUL /\
  strchr ("x" :: bytes "yz") "-" = None /\
  parse_token ("x" :: bytes "yz") = {| start := 0; end_ := 0 |} /\
  forall p, 1 <= p -> in_range [parse_token ("x" :: bytes "yz")] p = false.
Proof.
  assert (H1 : isspace "x" = false) by reflexivity.
  assert (H2 : isdigit "x" = false) by reflexivity.
  assert (H3 : "x" <> "+") by discriminate.
  assert (H4 : "x" <> NUL) by discriminate.
  assert (H5 : strchr ("x" :: bytes "yz") "-" = None) by reflexivity.
  split; [exact H1 | split; [exact H2 | split; [exact H3 | split;
    [exact H4 | split; [exact H5|]]]]].
  exact (non_numeric_token_is_zero "x" (bytes "yz") H1 H2 H3 H4 H5).
Defined.

(** ** What the two modes select *)

Section Selection.

Variable ranges : list Range.

Lemma cut_bytes_scan_selected (line : list ascii) :
  forall pos,
    1 <= pos ->
    pos + Z.of_nat (length line) <= INT_MAX + 1 ->
    cut_bytes_scan ranges line pos
    = map snd (filter (fun pu => in_range ranges (fst pu))
                      (number_from pos (visible line))).
Proof.
  induction line as [|c rest IH]; intros pos Hlo Hhi; [reflexivity|].
  cbn [length] in Hhi. rewrite Nat2Z.inj_succ in Hhi.
  cbn [cut_bytes_scan visible].
  destruct ((c =? LF)%char || (c =? NUL)%char); [reflexivity|].
  cbn [number_from filter fst].
  assert (Hrest : cut_bytes_scan ranges rest (to_int (pos + 1))
                  = map snd (filter (fun pu => in_range ranges (fst pu))
                                    (number_from (pos + 1) (visible rest)))).
  { destruct rest as [|c' rest']; [reflexivity|].
    cbn [length] in Hhi. rewrite Nat2Z.inj_succ in Hhi.
    rewrite to_int_small by (unfold INT_MIN, INT_MAX in *; lia).
    apply IH; cbn [length]; rewrite ?Nat2Z.inj_succ; lia. }
  rewrite Hrest. now destruct (in_range ranges pos).
Qed.

Lemma cut_fields_scan_selected (d : ascii) (toks : list (list ascii)) :
  d <> NUL ->
  forall field fo,
    1 <= field ->
    field + Z.of_nat (length toks) <= INT_MAX + 1 ->
    cut_fields_scan ranges [d] toks field fo
    = match map snd (filter (fun pu => in_range ranges (fst pu))
                            (number_from field toks)) with
      | [] => ([], fo)
      | sel => ((if fo then [] else [d]) ++ join_with d sel, false)
      end.
Proof.
  intros Hd. induction toks as [|t next IH]; intros field fo Hlo Hhi;
    [reflexivity|].
  cbn [length] in Hhi. rewrite Nat2Z.inj_succ in Hhi.
  cbn [cut_fields_scan number_from filter fst].
  assert (Hnext : forall fo',
             cut_fields_scan ranges [d] next (to_int (field + 1)) fo'
             = match map snd (filter (fun pu => in_range ranges (fst pu))
                                     (number_from (field + 1) next)) with
               | [] => ([], fo')
               | sel => ((if fo' then [] else [d]) ++ join_with d sel, false)
               end).
  { intros fo'. destruct next as [|t' next']; [reflexivity|].
    cbn [length] in Hhi. rewrite Nat2Z.inj_succ in Hhi.
    rewrite to_int_small by (unfold INT_MIN, INT_MAX in *; lia).
    apply IH; cbn [length]; rewrite ?Nat2Z.inj_succ; lia. }
  rewrite !Hnext, (cstr_single d Hd).
  destruct (in_range ranges field); [|reflexivity].
  cbn [map snd].
  destruct (map snd (filter (fun pu => in_range ranges (fst pu))
                            (number_from (field + 1) next))) as [|s sel].
  - cbn [join_with]. now rewrite app_nil_r.
  - reflexivity.
Qed.

End Selection.

Lemma visible_app (content tail : list ascii) :
  ~ In LF content -> ~ In NUL content ->
  visible (content ++ tail) = content ++ visible tail.
Proof.
  induction content as [|c rest IH]; intros Hlf Hnul; [reflexivity|].
  cbn [app visible].
  destruct (Ascii.eqb_spec c LF) as [->|_]; [simpl in Hlf; tauto|].
  destruct (Ascii.eqb_spec c NUL) as [->|_]; [simpl in Hnul; tauto|].
  cbn [orb]. f_equal. apply IH; simpl in *; tauto.
Qed.

Lemma visible_line (line : list ascii) :
  is_line line -> ~ In NUL line -> visible line = chomp line.
Proof.
  intros [content [Hlf Hline]] Hnul.
  assert (Hc : ~ In NUL content).
  { intros H. apply Hnul. destruct Hline as [-> | ->];
      [apply in_or_app; now left | exact H]. }
  destruct Hline as [-> | ->].
  - rewrite chomp_newline, visible_app by assumption. simpl. apply app_nil_r.
  - rewrite chomp_unterminated by exact Hlf.
    rewrite <- (app_nil_r content) at 1.
    rewrite visible_app by assumption. apply app_nil_r.
Qed.

(** X5.  Byte mode writes, for a line of at most [INT_MAX] bytes, the
    bytes whose position counted from 1 is in one of the ranges, in the
    order of the line, then the terminator; the positions are those of the
    bytes before the first newline or NUL byte, which for a line without
    NUL byte are the bytes of the line. *)
Theorem byte_mode_selects_positions
  (ranges : list Range) (line_delim : ascii) (line : list ascii) :
  Z.of_nat (length line) <= INT_MAX ->
  cut_bytes_line ranges line_delim line
  = selected ranges (visible line) ++ [line_delim] /\
  (is_line line -> ~ In NUL line ->
   cut_bytes_line ranges line_delim line
   = selected ranges (chomp line) ++ [line_delim]).
Proof.
  intros Hlen.
  assert (H : cut_bytes_line ranges line_delim line
              = selected ranges (visible line) ++ [line_delim]).
  { unfold cut_bytes_line, selected.
    rewrite cut_bytes_scan_selected by lia. reflexivity. }
  split; [exact H|]. intros Hl Hn. now rewrite H, visible_line.
Qed.

Lemma byte_mode_selects_positions_witness :
  Z.of_nat (length (bytes "abcdef" ++ [LF])) <= INT_MAX /\
  cut_bytes_line (parse_ranges (bytes "2,4-5")) LF (bytes "abcdef" ++ [LF])
  = selected (parse_ranges (bytes "2,4-5")) (visible (bytes "abcdef" ++ [LF]))
    ++ [LF] /\
  (is_line (bytes "abcdef" ++ [LF]) -> ~ In NUL (bytes "abcdef" ++ [LF]) ->
   cut_bytes_line (parse_ranges (bytes "2,4-5")) LF (bytes "abcdef" ++ [LF])
   = selected (parse_ranges (bytes "2,4-5")) (chomp (bytes "abcdef" ++ [LF]))
     ++ [LF]).
Proof.
  assert (H : Z.of_nat (length (bytes "abcdef" ++ [LF])) <= INT_MAX).
  { vm_compute. discriminate. }
  split; [exact H|].
  exact (byte_mode_selects_positions (parse_ranges (bytes "2,4-5")) LF
           (bytes "abcdef" ++ [LF]) H).
Defined.

Lemma cut_fields_line_selected
  (ranges : list Range) (d : ascii) (suppress : bool) (line_delim : ascii)
  (line : list ascii) :
  d <> NUL ->
  In d (cstr (chomp line)) ->
  Z.of_nat (length (fields d line)) <= INT_MAX ->
  cut_fields_line ranges [d] suppress line_delim line
  = match selected ranges (fields d line) with
    | [] => []
    | sel => join_with d sel ++ [line_delim]
    end.
Proof.
  intros Hd Hin Hlen. unfold cut_fields_line. cbn [first_byte hd].
  destruct (strchr (chomp line) d) eqn:Hs.
  2:{ apply strchr_None in Hs; [contradiction | exact Hd]. }
  rewrite (cstr_single d Hd).
  change (tokens [d] (strdup (chomp line))) with (fields d line).
  rewrite cut_fields_scan_selected by (assumption || lia).
  unfold selected.
  destruct (map snd (filter (fun pu => in_range ranges (fst pu))
                            (number_from 1 (fields d line)))); reflexivity.
Qed.

(** X6.  Field mode writes, for a line that holds the delimiter before any
    NUL byte, the fields whose number counted from 1 is in one of the
    ranges, in the order of the line and joined by the delimiter, then the
    terminator; when no field is selected it writes nothing.  The [-s]
    option plays no part for such a line. *)
Theorem field_mode_joins_selected_fields
  (ranges : list Range) (d : ascii) (suppress : bool) (line_delim : ascii)
  (line : list ascii) :
  d <> NUL ->
  In d (cstr (chomp line)) ->
  Z.of_nat (length (fields d line)) <= INT_MAX ->
  cut_fields_line ranges [d] suppress line_delim line
  = match selected ranges (fields d line) with
    | [] => []
    | sel => join_with d sel ++ [line_delim]
    end.
Proof.
  intros Hd Hin Hlen. unfold cut_fields_line. cbn [first_byte hd].
  destruct (strchr (chomp line) d) eqn:Hs.
  2:{ apply strchr_None in Hs; [contradiction | exact Hd]. }
  rewrite (cstr_single d Hd).
  change (tokens [d] (strdup (chomp line))) with (fields d line).
  rewrite cut_fields_scan_selected by (assumption || lia).
  unfold selected.
  destruct (map snd (filter (fun pu => in_range ranges (fst pu))
                            (number_from 1 (fields d line)))); reflexivity.
Qed.

Lemma field_mode_joins_selected_fields_witness :
  "," <> NUL /\
  In "," (cstr (chomp (bytes "a,b,c,d" ++ [LF]))) /\
  Z.of_nat (length (fields "," (bytes "a,b,c,d" ++ [LF]))) <= INT_MAX /\
  cut_fields_line (parse_ranges (bytes "4,2")) [","] false LF
                  (bytes "a,b,c,d" ++ [LF])
  = match selected (parse_ranges (bytes "4,2"))
                   (fields "," (bytes "a,b,c,d" ++ [LF])) with
    | [] => []
    | sel => join_with "," sel ++ [LF]
    end.
Proof.
  assert (H1 : "," <> NUL) by discriminate.
  assert (H2 : In "," (cstr (chomp (bytes "a,b,c,d" ++ [LF])))).
  { vm_compute. tauto. }
  assert (H3 : Z.of_nat (length (fields "," (bytes "a,b,c,d" ++ [LF])))
               <= INT_MAX).
  { vm_compute. discriminate. }
  split; [exact H1 | split; [exact H2 | split; [exact H3|]]].
  exact (field_mode_joins_selected_fields (parse_ranges (bytes "4,2")) ","
           false LF (bytes "a,b,c,d" ++ [LF]) H1 H2 H3).
Defined.

Lemma selected_everything {A : Type} (units : list A) :
  forall pos,
    1 <= pos -> pos + Z.of_nat (length units) <= INT_MAX + 1 ->
    map snd (filter (fun pu => in_range [{| start := 1; end_ := INT_MAX |}]
                                        (fst pu))
                    (number_from pos units))
    = units.
Proof.
  induction units as [|u rest IH]; intros pos Hlo Hhi; [reflexivity|].
  cbn [length] in Hhi. rewrite Nat2Z.inj_succ in Hhi.
  cbn [number_from filter fst in_range start end_].
  replace (1 <=? pos) with true by (symmetry; apply Z.leb_le; lia).
  replace (pos <=? INT_MAX) with true by (symmetry; apply Z.leb_le; lia).
  cbn [andb map snd]. f_equal. apply IH; lia.
Qed.

Lemma tokens_join_with (d : ascii) (fs : list (list ascii)) :
  Forall (fun f => f <> [] /\ ~ In d f) fs ->
  tokens [d] (join_with d fs) = fs.
Proof.
  assert (Hnd : forall f : list ascii, ~ In d f ->
                forall c, In c f -> is_delim [d] c = false).
  { intros f Hf c Hin. unfold is_delim. simpl. rewrite orb_false_r.
    destruct (Ascii.eqb_spec c d) as [->|]; [contradiction | reflexivity]. }
  assert (Hdd : is_delim [d] d = true).
  { unfold is_delim. simpl. now rewrite Ascii.eqb_refl. }
  induction 1 as [|f rest [Hne Hf] Hrest IH]; [reflexivity|].
  destruct rest as [|f' rest'].
  - cbn [join_with]. apply tokens_last_token; [exact Hne | exact (Hnd f Hf)].
  - change (join_with d (f :: f' :: rest'))
      with (f ++ d :: join_with d (f' :: rest')).
    rewrite tokens_token_delim; [| exact Hne | exact (Hnd f Hf) | exact Hdd].
    now rewrite IH.
Qed.

Lemma join_with_clean (d : ascii) (fs : list (list ascii)) (c : ascii) :
  c <> d -> Forall (fun f => ~ In c f) fs -> ~ In c (join_with d fs).
Proof.
  intros Hc. induction 1 as [|f rest Hf Hrest IH]; [simpl; tauto|].
  destruct rest as [|f' rest']; [exact Hf|].
  change (join_with d (f :: f' :: rest'))
    with (f ++ d :: join_with d (f' :: rest')).
  intros Hin. apply in_app_or in Hin.
  destruct Hin as [Hin | [Hin | Hin]]; [tauto | now apply Hc | tauto].
Qed.

(** X7.  Field mode with the selector [1-] gives a line back: a line made
    of fields that are not empty, joined by the delimiter, is written as
    it is, its newline replaced by the terminator (without [-s] when there
    is one field only, so no delimiter). *)
Theorem field_mode_full_range_identity
  (d : ascii) (line_delim : ascii) (fs : list (list ascii)) :
  d <> NUL ->
  fs <> [] ->
  Forall (is_field d) fs ->
  Z.of_nat (length fs) <= INT_MAX ->
  cut_fields_line (parse_ranges (bytes "1-")) [d] false line_delim
                  (join_with d fs ++ [LF])
  = join_with d fs ++ [line_delim].
Proof.
  intros Hd Hne Hfs Hlen.
  assert (Hnul : ~ In NUL (join_with d fs)).
  { apply join_with_clean; [congruence|].
    eapply Forall_impl; [|exact Hfs]. intros f Hf. apply Hf. }
  assert (Htok : tokens [d] (join_with d fs) = fs).
  { apply tokens_join_with. eapply Forall_impl; [|exact Hfs].
    intros f Hf. split; apply Hf. }
  destruct fs as [|f [|f' rest]]; [contradiction| |].
  - inversion Hfs as [|? ? [_ [Hdf _]] _]; subst.
    unfold cut_fields_line. rewrite chomp_newline. cbn [join_with] in *.
    cbn [first_byte hd].
    assert (Hs : strchr f d = None).
    { apply strchr_None; [exact Hd|]. intros H. apply Hdf.
      now apply cstr_incl. }
    rewrite Hs. now rewrite cstr_id.
  - rewrite cut_fields_line_selected.
    + unfold fields, strdup. rewrite chomp_newline, cstr_id, Htok by exact Hnul.
      rewrite parse_ranges_full. unfold selected.
      rewrite selected_everything by lia. reflexivity.
    + exact Hd.
    + rewrite chomp_newline, cstr_id by exact Hnul.
      cbn [join_with]. apply in_or_app. right. now left.
    + unfold fields, strdup. rewrite chomp_newline, cstr_id, Htok by exact Hnul.
      exact Hlen.
Qed.

Lemma field_mode_full_range_identity_witness :
  ":" <> NUL /\
  [bytes "root"; bytes "x"; bytes "0"] <> [] /\
  Forall (is_field ":") [bytes "root"; bytes "x"; bytes "0"] /\
  Z.of_nat (length [bytes "root"; bytes "x"; bytes "0"]) <= INT_MAX /\
  cut_fields_line (parse_ranges (bytes "1-")) [":"] false LF
                  (join_with ":" [bytes "root"; bytes "x"; bytes "0"] ++ [LF])
  = join_with ":" [bytes "root"; bytes "x"; bytes "0"] ++ [LF].
Proof.
  assert (H1 : ":" <> NUL) by discriminate.
  assert (H2 : [bytes "root"; bytes "x"; bytes "0"] <> []) by discriminate.
  assert (H3 : Forall (is_field ":") [bytes "root"; bytes "x"; bytes "0"]).
  { repeat constructor; try discriminate;
      simpl; intros H; repeat (destruct H as [H|H]; [discriminate H|]);
      exact H. }
  assert (H4 : Z.of_nat (length [bytes "root"; bytes "x"; bytes "0"])
               <= INT_MAX).
  { vm_compute. discriminate. }
  split; [exact H1 | split; [exact H2 | split; [exact H3 | split; [exact H4|]]]].
  exact (field_mode_full_range_identity ":" LF
           [bytes "root"; bytes "x"; bytes "0"] H1 H2 H3 H4).
Defined.

(** ** Streams *)

Section Streams.

Lemma read_lines_not_nil (fp : list ascii) : fp <> [] -> read_lines fp <> [].
Proof.
  destruct fp as [|c rest]; [contradiction|]. intros _. simpl.
  destruct (c =? LF)%char; [discriminate|].
  destruct (read_lines rest); discriminate.
Qed.

Lemma read_lines_app (a b : list ascii) :
  read_lines (a ++ LF :: b) = read_lines (a ++ [LF]) ++ read_lines b.
Proof.
  induction a as [|c rest IH]; [reflexivity|].
  cbn [app read_lines]. destruct (c =? LF)%char; [now rewrite IH|].
  rewrite IH.
  assert (Hne : read_lines (rest ++ [LF]) <> []).
  { apply read_lines_not_nil. now destruct rest. }
  destruct (read_lines (rest ++ [LF])); [contradiction | reflexivity].
Qed.

Lemma concat_read_lines (fp : list ascii) : concat (read_lines fp) = fp.
Proof.
  induction fp as [|c rest IH]; [reflexivity|]. simpl.
  destruct (Ascii.eqb_spec c LF) as [->|_]; [simpl; now rewrite IH|].
  destruct (read_lines rest) as [|l ls]; simpl in *; now rewrite <- IH.
Qed.

Lemma read_lines_lines_not_nil (fp : list ascii) :
  Forall (fun l => l <> []) (read_lines fp).
Proof.
  induction fp as [|c rest IH]; simpl; [constructor|].
  destruct (c =? LF)%char; [constructor; [discriminate | exact IH]|].
  destruct (read_lines rest) as [|l ls].
  - repeat constructor. discriminate.
  - inversion IH; subst. constructor; [discriminate | assumption].
Qed.

Lemma in_concat_length {A : Type} (l : list A) (ls : list (list A)) :
  In l ls -> (length l <= length (concat ls))%nat.
Proof.
  induction ls as [|x xs IH]; [contradiction|].
  simpl. rewrite length_app. intros [-> | H]; [lia|].
  specialize (IH H). lia.
Qed.

Lemma read_lines_part (fp l : list ascii) :
  In l (read_lines fp) ->
  (forall c, In c l -> In c fp) /\ (length l <= length fp)%nat.
Proof.
  intros Hin. split.
  - intros c Hc. rewrite <- (concat_read_lines fp). apply in_concat.
    exists l. tauto.
  - pose proof (in_concat_length l (read_lines fp) Hin) as H.
    now rewrite concat_read_lines in H.
Qed.

Lemma chomp_cons (c : ascii) (rest : list ascii) :
  rest <> [] -> chomp (c :: rest) = c :: chomp rest.
Proof.
  intros Hne. unfold chomp. cbn [rev].
  destruct (rev rest) as [|x front] eqn:E.
  - exfalso. apply Hne. apply (f_equal (@rev ascii)) in E.
    now rewrite rev_involutive in E.
  - cbn [app]. destruct (x =? LF)%char; [|reflexivity].
    rewrite rev_app_distr. reflexivity.
Qed.

(** Every line written back with a newline: the stream, with a newline at
    its end when it had none. *)
Lemma flat_map_chomp (fp : list ascii) :
  fp <> [] ->
  flat_map (fun l => chomp l ++ [LF]) (read_lines fp) = chomp fp ++ [LF].
Proof.
  induction fp as [|c rest IH]; [contradiction|]. intros _.
  cbn [read_lines].
  destruct (Ascii.eqb_spec c LF) as [->|Hc].
  - cbn [flat_map]. destruct rest as [|c' rest']; [reflexivity|].
    assert (Hne : c' :: rest' <> []) by discriminate.
    rewrite (IH Hne), (chomp_cons LF _ Hne). reflexivity.
  - pose proof (read_lines_lines_not_nil rest) as Hne.
    destruct rest as [|c' rest'].
    + cbn. unfold chomp. cbn. destruct (Ascii.eqb_spec c LF);
        [contradiction | reflexivity].
    + assert (Hr : c' :: rest' <> []) by discriminate.
      specialize (IH Hr).
      pose proof (read_lines_not_nil (c' :: rest') Hr) as Hn.
      destruct (read_lines (c' :: rest')) as [|l ls]; [contradiction|].
      inversion Hne; subst. cbn [flat_map] in *.
      rewrite !chomp_cons by (assumption || discriminate).
      cbn [app]. f_equal. rewrite <- app_assoc in IH. rewrite <- app_assoc.
      exact IH.
Qed.

Lemma flat_map_same {A B : Type} (f g : A -> list B) (l : list A) :
  (forall a, In a l -> f a = g a) -> flat_map f l = flat_map g l.
Proof.
  induction l as [|a rest IH]; intros H; [reflexivity|].
  simpl. rewrite (H a (or_introl eq_refl)), IH; [reflexivity|].
  intros x Hx. apply H. now right.
Qed.

Lemma cut_bytes_line_full (line : list ascii) :
  is_line line -> ~ In NUL line -> Z.of_nat (length line) <= INT_MAX ->
  cut_bytes_line [{| start := 1; end_ := INT_MAX |}] LF line = chomp line ++ [LF].
Proof.
  intros Hline Hnul Hlen. unfold cut_bytes_line.
  rewrite cut_bytes_scan_selected by lia.
  rewrite selected_everything.
  - now rewrite visible_line.
  - lia.
  - assert (H : (length (visible line) <= length line)%nat).
    { clear. induction line as [|c rest IH]; simpl; [lia|].
      destruct ((c =? LF)%char || (c =? NUL)%char); simpl; lia. }
    lia.
Qed.

End Streams.

(** X8.  The lines are cut one by one: a stream that goes on after a
    newline writes what its part up to that newline writes, followed by
    what the rest writes, in byte mode and in field mode. *)
Theorem cut_stream_is_line_by_line
  (o : options) (ranges : list Range) (a b : list ascii) :
  cut_stream o ranges (a ++ LF :: b)
  = cut_stream o ranges (a ++ [LF]) ++ cut_stream o ranges b.
Proof.
  unfold cut_stream, cut_fields, cut_bytes.
  destruct (mode o =? chr "f"); now rewrite read_lines_app, flat_map_app.
Qed.

(** X9.  In byte mode the selector [1-] copies a stream without NUL byte
    (and of at most [INT_MAX] bytes): the output is the input, with a
    newline added at the end when the last line had none; an empty input
    writes nothing. *)
Theorem byte_mode_full_range_copies_stream (fp : list ascii) :
  ~ In NUL fp ->
  Z.of_nat (length fp) <= INT_MAX ->
  cut_bytes fp (parse_ranges (bytes "1-")) LF
  = match fp with
    | [] => []
    | _ => chomp fp ++ [LF]
    end.
Proof.
  intros Hnul Hlen. destruct fp as [|c rest] eqn:E; [reflexivity|].
  rewrite <- E in *. rewrite <- flat_map_chomp by (rewrite E; discriminate).
  unfold cut_bytes. rewrite parse_ranges_full.
  apply flat_map_same. intros l Hl.
  destruct (read_lines_part fp l Hl) as [Hc Hlen'].
  apply cut_bytes_line_full.
  - pose proof (read_lines_are_lines fp) as H. rewrite Forall_forall in H.
    now apply H.
  - intros H. apply Hnul. now apply Hc.
  - lia.
Qed.

Lemma byte_mode_full_range_copies_stream_witness :
  ~ In NUL (bytes "ab" ++ [LF] ++ bytes "c") /\
  Z.of_nat (length (bytes "ab" ++ [LF] ++ bytes "c")) <= INT_MAX /\
  cut_bytes (bytes "ab" ++ [LF] ++ bytes "c") (parse_ranges (bytes "1-")) LF
  = bytes "ab" ++ [LF] ++ bytes "c" ++ [LF].
Proof.
  assert (H1 : ~ In NUL (bytes "ab" ++ [LF] ++ bytes "c")).
  { simpl. intros H. repeat (destruct H as [H|H]; [discriminate H|]). exact H. }
  assert (H2 : Z.of_nat (length (bytes "ab" ++ [LF] ++ bytes "c")) <= INT_MAX).
  { vm_compute. discriminate. }
  split; [exact H1 | split; [exact H2|]].
  exact (byte_mode_full_range_copies_stream
           (bytes "ab" ++ [LF] ++ bytes "c") H1 H2).
Defined.

Lemma cut_fields_line_suppress
  (ranges : list Range) (delim : list ascii) (line_delim : ascii)
  (line : list ascii) :
  cut_fields_line ranges delim true line_delim line
  = if has_delimiter (first_byte delim) line
    then cut_fields_line ranges delim false line_delim line
    else [].
Proof.
  unfold cut_fields_line, has_delimiter.
  destruct (strchr (chomp line) (first_byte delim)); reflexivity.
Qed.

(** X10.  In field mode [-s] drops the lines in which the delimiter does
    not occur and changes nothing else: the output with [-s] is the
    output without it of the lines that hold the delimiter. *)
Theorem suppress_drops_lines_without_delimiter
  (fp : list ascii) (ranges : list Range) (delim : list ascii)
  (line_delim : ascii) :
  cut_fields fp ranges delim true line_delim
  = flat_map (cut_fields_line ranges delim false line_delim)
             (filter (has_delimiter (first_byte delim)) (read_lines fp)).
Proof.
  unfold cut_fields.
  induction (read_lines fp) as [|l ls IH]; [reflexivity|].
  cbn [flat_map filter]. rewrite IH, cut_fields_line_suppress.
  destruct (has_delimiter (first_byte delim) l); reflexivity.
Qed.

(** X11.  A line made of delimiters only writes nothing in field mode,
    whatever the ranges and with or without [-s]: it holds the delimiter
    and has no field. *)
Theorem delimiters_only_line_writes_nothing
  (ranges : list Range) (d : ascii) (suppress : bool) (line_delim : ascii)
  (line : list ascii) :
  d <> NUL ->
  cstr (chomp line) <> [] ->
  Forall (fun c => c = d) (cstr (chomp line)) ->
  cut_fields_line ranges [d] suppress line_delim line = [].
Proof.
  intros Hd Hne Hall. unfold cut_fields_line. cbn [first_byte hd].
  destruct (strchr (chomp line) d) eqn:Hs.
  - rewrite (cstr_single d Hd). unfold strdup.
    apply tokens_nil_iff in Hall. now rewrite Hall.
  - apply strchr_None in Hs; [|exact Hd]. exfalso.
    destruct (cstr (chomp line)) as [|c rest]; [contradiction|].
    inversion Hall; subst. apply Hs. now left.
Qed.

Lemma delimiters_only_line_writes_nothing_witness :
  "," <> NUL /\
  cstr (chomp (bytes ",,," ++ [LF])) <> [] /\
  Forall (fun c => c = ",") (cstr (chomp (bytes ",,," ++ [LF]))) /\
  cut_fields_line (parse_ranges (bytes "1-")) [","] false LF
                  (bytes ",,," ++ [LF]) = [].
Proof.
  assert (H1 : "," <> NUL) by discriminate.
  assert (H2 : cstr (chomp (bytes ",,," ++ [LF])) <> []).
  { vm_compute. discriminate. }
  assert (H3 : Forall (fun c => c = ",") (cstr (chomp (bytes ",,," ++ [LF])))).
  { vm_compute. repeat constructor. }
  split; [exact H1 | split; [exact H2 | split; [exact H3|]]].
  exact (delimiters_only_line_writes_nothing (parse_ranges (bytes "1-")) ","
           false LF (bytes ",,," ++ [LF]) H1 H2 H3).
Defined.

(** ** The run after the options *)

Section Run.

Variable fopen : list ascii -> option (list ascii).

Lemma cut_builtin_run (input : list ascii) (evs : list (Z * list ascii))
  (loptend : list (list ascii)) :
  cut_builtin fopen input evs loptend
  = match option_loop evs initial_options with
    | inl d => usage_error d input
    | inr o => cut_run fopen input o loptend
    end.
Proof. reflexivity. Qed.

Lemma cut_stream_nil (o : options) (ranges : list Range) :
  cut_stream o ranges [] = [].
Proof. unfold cut_stream. now destruct (mode o =? chr "f"). Qed.

Lemma cut_files_dashes (o : options) (ranges : list Range) (n : nat) :
  forall st, stdin st = [] -> cut_files fopen o ranges (repeat dash n) st = st.
Proof.
  induction n as [|n IH]; intros st Hst; [reflexivity|].
  cbn [repeat cut_files]. change (is_dash dash) with true. cbv iota.
  rewrite Hst, cut_stream_nil, app_nil_r, IH by reflexivity.
  destruct st. simpl in Hst. now subst.
Qed.

(** The files loop uses the options through [cut_stream] only. *)
Lemma cut_files_ext (o1 o2 : options) (ranges : list Range)
  (files : list (list ascii)) :
  (forall fp, cut_stream o1 ranges fp = cut_stream o2 ranges fp) ->
  forall st, cut_files fopen o1 ranges files st
             = cut_files fopen o2 ranges files st.
Proof.
  intros H. induction files as [|f next IH]; intros st; [reflexivity|].
  cbn [cut_files]. destruct (is_dash f); [now rewrite H, IH|].
  destruct (fopen f); [now rewrite H, IH | apply IH].
Qed.

Lemma cut_run_ext (input : list ascii) (o1 o2 : options)
  (loptend : list (list ascii)) :
  (mode o1 =? 0) = (mode o2 =? 0) ->
  range_list o1 = range_list o2 ->
  (forall ranges fp, cut_stream o1 ranges fp = cut_stream o2 ranges fp) ->
  cut_run fopen input o1 loptend = cut_run fopen input o2 loptend.
Proof.
  intros Hm Hr Hs. unfold cut_run. rewrite Hm, Hr.
  destruct (mode o2 =? 0); [reflexivity|].
  destruct (parse_ranges (range_list o2)) as [|r rs]; [reflexivity|].
  destruct loptend as [|f fs]; [now rewrite Hs|].
  apply cut_files_ext. intros fp. apply Hs.
Qed.

End Run.

(** X12.  The operand [-] is the standard input, which is read to its
    end by the first [-]: a run with one or more operands [-] and no other
    operand ends as the run without operands does, in every respect. *)
Theorem dash_operands_are_standard_input
  (fopen : list ascii -> option (list ascii)) (input : list ascii)
  (evs : list (Z * list ascii)) (n : nat) :
  cut_builtin fopen input evs (repeat dash (S n))
  = cut_builtin fopen input evs [].
Proof.
  rewrite !cut_builtin_run.
  destruct (option_loop evs initial_options) as [d|o]; [reflexivity|].
  unfold cut_run. destruct (mode o =? 0); [reflexivity|].
  destruct (parse_ranges (range_list o)) as [|r rs]; [reflexivity|].
  cbn [repeat cut_files]. change (is_dash dash) with true. cbv iota.
  cbn [stdout stdin status stderr app].
  now rewrite cut_files_dashes.
Qed.

(** ** Options that change nothing *)

Section SameRun.

Lemma option_step_b_for_c (ob o : options) (ev : Z * list ascii) :
  related ob o ->
  match option_step ob (b_for_c ev), option_step o ev with
  | inl d1, inl d2 => d1 = d2
  | inr ob', inr o' => related ob' o'
  | _, _ => False
  end.
Proof.
  destruct ev as [opt arg]. unfold b_for_c. cbn [fst snd].
  intros [-> | [Hc ->]].
  - destruct (Z.eqb_spec opt (chr "c")) as [->|Hopt].
    + unfold option_step. cbn.
      destruct (mode o =? 0); cbn; [|reflexivity].
      right. split; reflexivity.
    + destruct (option_step o (opt, arg)); [reflexivity | now left].
  - assert (Hstep : forall opt',
               match option_step (with_mode (chr "b") o) (opt', arg),
                     option_step o (opt', arg) with
               | inl d1, inl d2 => d1 = d2
               | inr ob', inr o' => related ob' o'
               | _, _ => False
               end).
    { intros opt'. unfold option_step.
      cbn [with_mode mode range_list delimiter suppress_no_delim line_delim].
      rewrite Hc.
      destruct ((opt' =? chr "b") || (opt' =? chr "c")); [reflexivity|].
      destruct (opt' =? chr "d").
      { destruct (negb (strlen arg =? 1)); [reflexivity|].
        right. split; reflexivity. }
      destruct (opt' =? chr "f"); [reflexivity|].
      destruct (opt' =? chr "s").
      { right. split; reflexivity. }
      destruct (opt' =? chr "z"); [|reflexivity].
      right. split; reflexivity. }
    destruct (Z.eqb_spec opt (chr "c")) as [->|Hopt]; [|apply Hstep].
    unfold option_step. cbn. rewrite Hc. reflexivity.
Qed.

Lemma option_loop_b_for_c (evs : list (Z * list ascii)) :
  forall ob o,
    related ob o ->
    match option_loop (map b_for_c evs) ob, option_loop evs o with
    | inl d1, inl d2 => d1 = d2
    | inr ob', inr o' => related ob' o'
    | _, _ => False
    end.
Proof.
  induction evs as [|ev rest IH]; intros ob o Hrel; [exact Hrel|].
  cbn [map option_loop].
  pose proof (option_step_b_for_c ob o ev Hrel) as Hstep.
  destruct (option_step ob (b_for_c ev)) as [d1|ob1];
    destruct (option_step o ev) as [d2|o1]; try contradiction.
  - exact Hstep.
  - apply IH. exact Hstep.
Qed.

Lemma cut_stream_byte_modes (ob o : options) :
  related ob o ->
  (mode ob =? 0) = (mode o =? 0) /\
  range_list ob = range_list o /\
  forall ranges fp, cut_stream ob ranges fp = cut_stream o ranges fp.
Proof.
  intros [-> | [Hc ->]]; [repeat split|].
  cbn [with_mode mode range_list]. rewrite Hc.
  split; [reflexivity|]. split; [reflexivity|]. intros ranges fp.
  unfold cut_stream. cbn [with_mode mode line_delim]. now rewrite Hc.
Qed.

(** X13.  Characters are bytes: a run with [-c LIST] ends as the run with
    [-b LIST] in its place does, in every respect. *)
Theorem characters_are_bytes
  (fopen : list ascii -> option (list ascii)) (input : list ascii)
  (evs : list (Z * list ascii)) (files : list (list ascii)) :
  cut_builtin fopen input (map b_for_c evs) files
  = cut_builtin fopen input evs files.
Proof.
  rewrite !cut_builtin_run.
  pose proof (option_loop_b_for_c evs initial_options initial_options
                (or_introl eq_refl)) as H.
  destruct (option_loop (map b_for_c evs) initial_options) as [d1|ob];
    destruct (option_loop evs initial_options) as [d2|o]; try contradiction.
  - now rewrite H.
  - destruct (cut_stream_byte_modes ob o H) as [Hm [Hr Hs]].
    now apply cut_run_ext.
Qed.

Lemma option_step_with_suppress (o : options) (ev : Z * list ascii) :
  option_step (with_suppress o) ev
  = lift_options with_suppress (option_step o ev).
Proof.
  destruct ev as [opt arg]. unfold option_step.
  cbn [with_suppress mode range_list delimiter suppress_no_delim line_delim].
  destruct ((opt =? chr "b") || (opt =? chr "c")).
  { destruct (negb (mode o =? 0)); reflexivity. }
  destruct (opt =? chr "d").
  { destruct (negb (strlen arg =? 1)); reflexivity. }
  destruct (opt =? chr "f").
  { destruct (negb (mode o =? 0)); reflexivity. }
  destruct (opt =? chr "s"); [reflexivity|].
  destruct (opt =? chr "z"); reflexivity.
Qed.

Lemma option_loop_with_suppress (evs : list (Z * list ascii)) :
  forall o, option_loop evs (with_suppress o)
            = lift_options with_suppress (option_loop evs o).
Proof.
  induction evs as [|ev rest IH]; intros o; [reflexivity|].
  cbn [option_loop]. rewrite option_step_with_suppress.
  destruct (option_step o ev) as [d|o1]; [reflexivity | apply IH].
Qed.

Lemma option_loop_insert_s (evs1 evs2 : list (Z * list ascii))
  (arg : list ascii) (o : options) :
  option_loop (evs1 ++ (chr "s", arg) :: evs2) o
  = lift_options with_suppress (option_loop (evs1 ++ evs2) o).
Proof.
  rewrite !option_loop_app.
  destruct (option_loop evs1 o) as [d|o1]; [reflexivity|].
  cbn [option_loop].
  change (option_step o1 (chr "s", arg)) with (inr (A := diagnostic)
                                                   (with_suppress o1)).
  apply option_loop_with_suppress.
Qed.

Lemma option_step_not_f (o o' : options) (ev : Z * list ascii) :
  fst ev <> chr "f" -> mode o <> chr "f" ->
  option_step o ev = inr o' -> mode o' <> chr "f".
Proof.
  destruct ev as [opt arg]. cbn [fst]. intros Hf Hm. unfold option_step.
  destruct (Z.eqb_spec opt (chr "b")) as [->|Hb].
  { cbn [orb]. destruct (negb (mode o =? 0)); [discriminate|].
    intros [= <-]. cbn. discriminate. }
  destruct (Z.eqb_spec opt (chr "c")) as [->|Hc].
  { cbn [orb]. destruct (negb (mode o =? 0)); [discriminate|].
    intros [= <-]. cbn. discriminate. }
  cbn [orb]. destruct (opt =? chr "d").
  { destruct (negb (strlen arg =? 1)); [discriminate|]. now intros [= <-]. }
  destruct (Z.eqb_spec opt (chr "f")); [contradiction|].
  destruct (opt =? chr "s"); [now intros [= <-]|].
  destruct (opt =? chr "z"); [now intros [= <-] | discriminate].
Qed.

Lemma option_loop_not_f (evs : list (Z * list ascii)) :
  Forall (fun ev => fst ev <> chr "f") evs ->
  forall o o', mode o <> chr "f" ->
               option_loop evs o = inr o' -> mode o' <> chr "f".
Proof.
  induction 1 as [|ev rest Hev _ IH]; intros o o' Hm; cbn [option_loop].
  - now intros [= <-].
  - destruct (option_step o ev) as [d|o1] eqn:Hstep; [discriminate|].
    apply IH. exact (option_step_not_f o o1 ev Hev Hm Hstep).
Qed.

(** X14.  [-s] plays no part in byte mode: when [-f] is not among the
    options, a run with a [-s] put in ends as the run without it does, in
    every respect. *)
Theorem suppress_is_ignored_in_byte_mode
  (fopen : list ascii -> option (list ascii)) (input : list ascii)
  (evs1 evs2 : list (Z * list ascii)) (arg : list ascii)
  (files : list (list ascii)) :
  Forall (fun ev => fst ev <> chr "f") (evs1 ++ evs2) ->
  cut_builtin fopen input (evs1 ++ (chr "s", arg) :: evs2) files
  = cut_builtin fopen input (evs1 ++ evs2) files.
Proof.
  intros Hf. rewrite !cut_builtin_run, option_loop_insert_s.
  destruct (option_loop (evs1 ++ evs2) initial_options) as [d|o] eqn:Hloop;
    [reflexivity|].
  cbn [lift_options].
  assert (Hm : mode o <> chr "f").
  { apply (option_loop_not_f _ Hf initial_options o); [discriminate|exact Hloop]. }
  apply cut_run_ext; [reflexivity | reflexivity|].
  intros ranges fp. unfold cut_stream.
  cbn [with_suppress mode line_delim].
  destruct (Z.eqb_spec (mode o) (chr "f")); [contradiction | reflexivity].
Qed.

Lemma suppress_is_ignored_in_byte_mode_witness :
  Forall (fun ev => fst ev <> chr "f") ([opt "b" "2-3"] ++ [opt "z" ""]) /\
  cut_builtin no_file (bytes "abcd" ++ [LF])
              ([opt "b" "2-3"] ++ (chr "s", []) :: [opt "z" ""]) []
  = cut_builtin no_file (bytes "abcd" ++ [LF])
                ([opt "b" "2-3"] ++ [opt "z" ""]) [].
Proof.
  assert (H : Forall (fun ev => fst ev <> chr "f")
                     ([opt "b" "2-3"] ++ [opt "z" ""])).
  { repeat constructor; vm_compute; discriminate. }
  split; [exact H|].
  exact (suppress_is_ignored_in_byte_mode no_file (bytes "abcd" ++ [LF])
           [opt "b" "2-3"] [opt "z" ""] [] [] H).
Defined.

End SameRun.

(** ** Where the bytes written come from *)

Section Provenance.

Lemma chomp_incl (l : list ascii) (c : ascii) : In c (chomp l) -> In c l.
Proof.
  unfold chomp. destruct (rev l) as [|x front] eqn:E; [tauto|].
  destruct (x =? LF)%char; [|tauto].
  intros H. apply in_rev. rewrite E. right. now apply in_rev.
Qed.

Lemma cut_fields_line_sound (ranges : list Range) (delim : list ascii)
  (suppress : bool) (line_delim : ascii) (line : list ascii) (c : ascii) :
  strlen delim = 1 ->
  In c (cut_fields_line ranges delim suppress line_delim line) ->
  In c line \/ c = line_delim.
Proof.
  intros Hlen. destruct (strlen_one delim Hlen) as [d [Hcs [Hd Hfb]]].
  unfold cut_fields_line. rewrite Hfb.
  destruct (strchr (chomp line) d) as [n|] eqn:Hs.
  - assert (Hin : In d (cstr (chomp line))).
    { destruct (in_dec ascii_dec d (cstr (chomp line))) as [H|H];
        [exact H|]. apply (strchr_None _ _ Hd) in H. congruence. }
    pose proof (cut_fields_scan_sound ranges delim
                  (tokens (cstr delim) (strdup (chomp line))) c 1 true) as H.
    destruct (cut_fields_scan ranges delim
                (tokens (cstr delim) (strdup (chomp line))) 1 true)
      as [out fo].
    cbn [fst] in H. intros Hc. apply in_app_or in Hc.
    destruct Hc as [Hc | Hc].
    + left. apply chomp_incl, cstr_incl.
      destruct (H Hc) as [H1 | [t [Ht H1]]].
      * rewrite Hcs in H1. destruct H1 as [<- | []]. exact Hin.
      * now destruct (tokens_sound _ _ _ _ Ht H1).
    + destruct fo; [contradiction|]. destruct Hc as [<- | []]. now right.
  - destruct suppress; [contradiction|]. intros Hc. apply in_app_or in Hc.
    destruct Hc as [Hc | [<- | []]]; [|now right].
    left. now apply chomp_incl, cstr_incl.
Qed.

Lemma cut_stream_sound (o : options) (ranges : list Range) (fp : list ascii)
  (c : ascii) :
  strlen (delimiter o) = 1 ->
  In c (cut_stream o ranges fp) -> In c fp \/ c = line_delim o.
Proof.
  intros Hlen. unfold cut_stream, cut_fields, cut_bytes.
  destruct (mode o =? chr "f"); intros H; apply in_flat_map in H;
    destruct H as [l [Hl Hc]]; destruct (read_lines_part fp l Hl) as [Hin _].
  - apply cut_fields_line_sound in Hc; [|exact Hlen].
    destruct Hc as [Hc | Hc]; [left; now apply Hin | now right].
  - unfold cut_bytes_line in Hc. apply in_app_or in Hc.
    destruct Hc as [Hc | [<- | []]]; [|now right].
    apply cut_bytes_scan_sound in Hc. left. now apply Hin.
Qed.

Lemma option_step_terminator (o o' : options) (ev : Z * list ascii) :
  option_step o ev = inr o' ->
  line_delim o' = line_delim o \/ line_delim o' = NUL.
Proof.
  destruct ev as [opt arg]. unfold option_step.
  destruct ((opt =? chr "b") || (opt =? chr "c")).
  { destruct (negb (mode o =? 0)); [discriminate|]. intros [= <-]. now left. }
  destruct (opt =? chr "d").
  { destruct (negb (strlen arg =? 1)); [discriminate|].
    intros [= <-]. now left. }
  destruct (opt =? chr "f").
  { destruct (negb (mode o =? 0)); [discriminate|]. intros [= <-]. now left. }
  destruct (opt =? chr "s"); [intros [= <-]; now left|].
  destruct (opt =? chr "z"); [intros [= <-]; now right | discriminate].
Qed.

Lemma option_loop_terminator (evs : list (Z * list ascii)) :
  forall o o',
    option_loop evs o = inr o' ->
    line_delim o' = line_delim o \/ line_delim o' = NUL.
Proof.
  induction evs as [|ev rest IH]; intros o o'; cbn [option_loop].
  - intros [= <-]. now left.
  - destruct (option_step o ev) as [d|o1] eqn:Hstep; [discriminate|].
    intros Hloop. destruct (IH o1 o' Hloop) as [H | H]; [|now right].
    rewrite H. exact (option_step_terminator o o1 ev Hstep).
Qed.

Variable fopen : list ascii -> option (list ascii).
Variable o : options.
Variable ranges : list Range.
Variable input : list ascii.
Variable operands : list (list ascii).
Hypothesis one_byte : strlen (delimiter o) = 1.

Lemma cut_files_sound (files : list (list ascii)) :
  incl files operands ->
  forall st,
    (forall c, In c (stdin st) -> In c input) ->
    (forall c, In c (stdout st) -> known_byte fopen o input operands c) ->
    forall c, In c (stdout (cut_files fopen o ranges files st)) ->
              known_byte fopen o input operands c.
Proof.
  induction files as [|f next IH]; intros Hincl st Hin Hout; [exact Hout|].
  assert (Hnext : incl next operands).
  { intros x Hx. apply Hincl. now right. }
  cbn [cut_files]. destruct (is_dash f).
  - apply (IH Hnext); cbn; [tauto|].
    intros c Hc. apply in_app_or in Hc. destruct Hc as [Hc|Hc]; [now apply Hout|].
    apply cut_stream_sound in Hc; [|exact one_byte].
    destruct Hc as [Hc | ->]; [left; now apply Hin | right; now right].
  - destruct (fopen f) as [fp|] eqn:Hf.
    + apply (IH Hnext); cbn; [exact Hin|].
      intros c Hc. apply in_app_or in Hc.
      destruct Hc as [Hc|Hc]; [now apply Hout|].
      apply cut_stream_sound in Hc; [|exact one_byte].
      destruct Hc as [Hc | ->]; [|right; now right].
      right. left. exists f, fp. split; [apply Hincl; now left | tauto].
    + apply (IH Hnext); cbn; assumption.
Qed.

End Provenance.

(** X15.  [cut] writes no byte of its own making: every byte on the
    standard output is a byte of the standard input, a byte of a file among
    the operands that could be opened, a newline or a NUL byte. *)
Theorem no_byte_is_invented
  (fopen : list ascii -> option (list ascii)) (input : list ascii)
  (evs : list (Z * list ascii)) (files : list (list ascii)) (c : ascii) :
  In c (stdout (cut_builtin fopen input evs files)) ->
  In c input \/
  (exists f fp, In f files /\ fopen f = Some fp /\ In c fp) \/
  c = LF \/ c = NUL.
Proof.
  rewrite cut_builtin_run.
  destruct (option_loop evs initial_options) as [d|o] eqn:Hloop;
    [contradiction|].
  destruct (option_loop_inr _ _ _ Hloop eq_refl) as [_ [Hlen _]].
  assert (Hld : line_delim o = LF \/ line_delim o = NUL).
  { exact (option_loop_terminator _ _ _ Hloop). }
  assert (Hk : forall operands x,
             known_byte fopen o input operands x ->
             In x input \/
             (exists f fp, In f operands /\ fopen f = Some fp /\ In x fp) \/
             x = LF \/ x = NUL).
  { intros operands x [H | [H | ->]]; [now left | right; now left|].
    right. right. exact Hld. }
  unfold cut_run. destruct (mode o =? 0); [contradiction|].
  destruct (parse_ranges (range_list o)) as [|r rs]; [contradiction|].
  destruct files as [|f fs].
  - cbn [stdout]. intros H. apply cut_stream_sound in H; [|exact Hlen].
    apply Hk. destruct H as [H | H]; [now left | right; now right].
  - intros H. apply Hk.
    apply (cut_files_sound fopen o (r :: rs) input (f :: fs) Hlen (f :: fs)
             (incl_refl (f :: fs))
             {| status := EXECUTION_SUCCESS; stdout := []; stderr := [];
                stdin := input |}); cbn; tauto.
Qed.

Lemma no_byte_is_invented_witness :
  In "b" (stdout (cut_builtin no_file (bytes "a,b" ++ [LF])
                              [opt "d" ","; opt "f" "2"] [])) /\
  (In "b" (bytes "a,b" ++ [LF]) \/
   (exists f fp, In f [] /\ no_file f = Some fp /\ In "b" fp) \/
   "b" = LF \/ "b" = NUL).
Proof.
  assert (H : In "b" (stdout (cut_builtin no_file (bytes "a,b" ++ [LF])
                                          [opt "d" ","; opt "f" "2"] []))).
  { vm_compute. tauto. }
  split; [exact H|].
  exact (no_byte_is_invented no_file (bytes "a,b" ++ [LF])
           [opt "d" ","; opt "f" "2"] [] "b" H).
Defined.

(** ** The exit status *)

Section ExitStatus.

Lemma option_step_known (o o' : options) (ev : Z * list ascii) :
  option_step o ev = inr o' ->
  is_known_option ev = true /\
  range_list o' = (if is_list_option ev then snd ev else range_list o).
Proof.
  destruct ev as [opt arg]. unfold option_step, is_known_option, is_list_option.
  cbn [fst snd].
  destruct (Z.eqb_spec opt (chr "b")) as [->|_]; cbn [orb].
  { destruct (negb (mode o =? 0)); [discriminate|]. intros [= <-]. now split. }
  destruct (Z.eqb_spec opt (chr "c")) as [->|_]; cbn [orb].
  { destruct (negb (mode o =? 0)); [discriminate|]. intros [= <-]. now split. }
  destruct (Z.eqb_spec opt (chr "d")) as [->|_]; cbn [orb].
  { destruct (negb (strlen arg =? 1)); [discriminate|].
    intros [= <-]. now split. }
  destruct (Z.eqb_spec opt (chr "f")) as [->|_]; cbn [orb].
  { destruct (negb (mode o =? 0)); [discriminate|]. intros [= <-]. now split. }
  destruct (opt =? chr "s"); cbn [orb]; [intros [= <-]; now split|].
  destruct (opt =? chr "z"); [intros [= <-]; now split | discriminate].
Qed.

Lemma option_step_accepts (o : options) (ev : Z * list ascii) :
  is_known_option ev = true ->
  ~ is_bad_delimiter ev ->
  (is_list_option ev = true -> mode o = 0) ->
  exists o', option_step o ev = inr o'.
Proof.
  destruct ev as [opt arg].
  unfold option_step, is_known_option, is_list_option, is_bad_delimiter.
  cbn [fst snd]. intros Hk Hb Hl.
  destruct (Z.eqb_spec opt (chr "b")) as [->|_]; cbn [orb] in *.
  { rewrite (Hl eq_refl). cbn. eauto. }
  destruct (Z.eqb_spec opt (chr "c")) as [->|_]; cbn [orb] in *.
  { rewrite (Hl eq_refl). cbn. eauto. }
  destruct (Z.eqb_spec opt (chr "d")) as [->|_]; cbn [orb] in *.
  { destruct (Z.eqb_spec (strlen arg) 1) as [_|Hn]; cbn; [eauto|].
    exfalso. apply Hb. now split. }
  destruct (Z.eqb_spec opt (chr "f")) as [->|_]; cbn [orb] in *.
  { rewrite (Hl eq_refl). cbn. eauto. }
  destruct (opt =? chr "s"); cbn [orb] in *; [eauto|].
  destruct (opt =? chr "z"); [eauto | discriminate].
Qed.

Lemma filter_none {A : Type} (f : A -> bool) (l : list A) :
  length (filter f l) = 0%nat -> existsb f l = false.
Proof.
  induction l as [|a rest IH]; [reflexivity|]. simpl.
  destruct (f a); simpl; [discriminate | exact IH].
Qed.

Lemma option_loop_known (evs : list (Z * list ascii)) :
  forall o o',
    option_loop evs o = inr o' ->
    strlen (delimiter o) = 1 ->
    Forall (fun ev => is_known_option ev = true) evs /\
    range_list o'
    = (if existsb is_list_option evs then list_argument evs else range_list o).
Proof.
  induction evs as [|ev rest IH]; intros o o' Hloop Hdel.
  - injection Hloop as <-. split; [constructor | reflexivity].
  - pose proof (option_loop_inr _ _ _ Hloop Hdel) as [_ [_ [_ Hset]]].
    cbn [option_loop] in Hloop.
    destruct (option_step o ev) as [d|o1] eqn:Hstep; [discriminate|].
    destruct (option_step_known _ _ _ Hstep) as [Hk Hr].
    assert (Hdel1 : strlen (delimiter o1) = 1).
    { destruct (option_step_inr _ _ _ Hstep) as [[_ [_ [_ ->]]] | [_ [_ [Hd Hnd]]]];
        [exact Hdel|].
      destruct (Z.eq_dec (fst ev) (chr "d")) as [E|E].
      - destruct (Hd E) as [Hl ->]. exact Hl.
      - now rewrite (Hnd E). }
    destruct (IH o1 o' Hloop Hdel1) as [Hks Hrs].
    split; [now constructor|].
    cbn [existsb list_argument]. rewrite Hrs, Hr.
    destruct (is_list_option ev) eqn:Hl; cbn [orb]; [|reflexivity].
    destruct (option_step_inr _ _ _ Hstep) as [[_ [_ [Hm1 _]]] | [Hl' _]];
      [|congruence].
    destruct (option_loop_inr _ _ _ Hloop Hdel1) as [_ [_ [_ Hset1]]].
    destruct (Hset1 Hm1) as [_ Hnone].
    now rewrite (filter_none _ _ Hnone).
Qed.

Lemma option_loop_accepts (evs : list (Z * list ascii)) :
  forall o,
    Forall (fun ev => is_known_option ev = true) evs ->
    ~ Exists is_bad_delimiter evs ->
    (if mode o =? 0 then (length (filter is_list_option evs) <= 1)%nat
     else length (filter is_list_option evs) = 0%nat) ->
    exists o', option_loop evs o = inr o'.
Proof.
  induction evs as [|ev rest IH]; intros o Hk Hb Hc; [cbn; eauto|].
  inversion Hk as [|? ? Hkev Hkrest]; subst.
  assert (Hbev : ~ is_bad_delimiter ev).
  { intros H. apply Hb. now left. }
  assert (Hbrest : ~ Exists is_bad_delimiter rest).
  { intros H. apply Hb. now right. }
  assert (Hl : is_list_option ev = true -> mode o = 0).
  { intros H. cbn [filter] in Hc. rewrite H in Hc. cbn [length] in Hc.
    destruct (Z.eqb_spec (mode o) 0); [assumption | discriminate]. }
  destruct (option_step_accepts o ev Hkev Hbev Hl) as [o1 Hstep].
  cbn [option_loop]. rewrite Hstep. apply IH; [assumption | assumption|].
  cbn [filter] in Hc.
  destruct (option_step_inr _ _ _ Hstep) as [[Hlist [_ [Hm1 _]]] | [Hlist [Hm1 _]]].
  - rewrite Hlist in Hc. cbn [length] in Hc.
    destruct (Z.eqb_spec (mode o1) 0); [contradiction|].
    destruct (mode o =? 0); [lia | discriminate].
  - rewrite Hlist in Hc. now rewrite Hm1.
Qed.

End ExitStatus.

(** X16.  The exit status of [cut].  It is [EX_USAGE] exactly when the
    options are not accepted: an option the builtin does not know, none or
    more than one of [-b], [-c] and [-f], a delimiter that is not one
    character, or a selector list without a token.  With [EX_USAGE]
    nothing is written to the standard output and nothing is read.  With
    accepted options and no operand the status is [EXECUTION_SUCCESS]. *)
Theorem exit_status_of_cut
  (fopen : list ascii -> option (list ascii)) (input : list ascii)
  (evs : list (Z * list ascii)) (files : list (list ascii)) :
  (status (cut_builtin fopen input evs files) <> EX_USAGE <-> accepted evs) /\
  (status (cut_builtin fopen input evs files) = EX_USAGE ->
   stdout (cut_builtin fopen input evs files) = [] /\
   stdin (cut_builtin fopen input evs files) = input) /\
  (accepted evs -> files = [] ->
   status (cut_builtin fopen input evs files) = EXECUTION_SUCCESS).
Proof.
  rewrite cut_builtin_run. unfold accepted.
  assert (Hfiles : forall o ranges st,
             status st = EXECUTION_SUCCESS ->
             status (cut_files fopen o ranges files st) <> EX_USAGE).
  { intros o ranges st Hst.
    destruct (cut_files_diagnostics fopen o ranges files st) as [_ ->].
    rewrite Hst. destruct (existsb (unopenable fopen) files); discriminate. }
  destruct (option_loop evs initial_options) as [d|o] eqn:Hloop.
  - split; [|split].
    + split; [intros H; now contradiction H|].
      intros [Hk [Hc [Hb _]]]. exfalso.
      destruct (option_loop_accepts evs initial_options Hk Hb) as [o' Ho'];
        [cbn; lia | congruence].
    + intros _. split; reflexivity.
    + intros [Hk [Hc [Hb _]]]. exfalso.
      destruct (option_loop_accepts evs initial_options Hk Hb) as [o' Ho'];
        [cbn; lia | congruence].
  - destruct (option_loop_inr _ _ _ Hloop eq_refl) as [Hbad [_ [Hzero _]]].
    destruct (option_loop_known _ _ _ Hloop eq_refl) as [Hknown Hrange].
    specialize (Hzero eq_refl). unfold cut_run.
    destruct (Z.eqb_spec (mode o) 0) as [Hm|Hm].
    + split; [|split].
      * split; [intros H; now contradiction H|].
        intros [_ [Hc _]]. exfalso. destruct Hzero as [[_ H]|[H _]]; [lia|tauto].
      * intros _. split; reflexivity.
      * intros [_ [Hc _]]. exfalso. destruct Hzero as [[_ H]|[H _]]; [lia|tauto].
    + destruct Hzero as [[H _]|[_ Hone]]; [contradiction|].
      assert (Hex : existsb is_list_option evs = true).
      { destruct (existsb is_list_option evs) eqn:E; [reflexivity|].
        exfalso. clear - E Hone.
        induction evs as [|ev rest IH]; [discriminate|].
        cbn in *. destruct (is_list_option ev); [discriminate|]. now apply IH. }
      rewrite Hex in Hrange. rewrite Hrange.
      destruct (parse_ranges (list_argument evs)) as [|r rs] eqn:Hp.
      * split; [|split].
        -- split; [intros H; now contradiction H|]. intros [_ [_ [_ H]]].
           now contradiction H.
        -- intros _. split; reflexivity.
        -- intros [_ [_ [_ H]]]. now contradiction H.
      * assert (Hacc : Forall (fun ev => is_known_option ev = true) evs /\
                       length (filter is_list_option evs) = 1%nat /\
                       ~ Exists is_bad_delimiter evs /\ r :: rs <> []).
        { repeat split; try assumption. discriminate. }
        split; [|split].
        -- split; [intros _; exact Hacc|]. intros _.
           destruct files; [discriminate | now apply Hfiles].
        -- intros H. exfalso.
           destruct files; [discriminate H | revert H; now apply Hfiles].
        -- intros _ ->. reflexivity.
Qed.

Lemma exit_status_of_cut_witness :
  accepted [opt "d" ":"; opt "f" "1,7"] /\
  status (cut_builtin no_file (bytes "a:b" ++ [LF])
                      [opt "d" ":"; opt "f" "1,7"] [])
  = EXECUTION_SUCCESS.
Proof.
  assert (H : accepted [opt "d" ":"; opt "f" "1,7"]).
  { repeat split; try (repeat constructor).
    - intros H. repeat (apply Exists_cons in H; destruct H as [H|H]);
        [destruct H as [_ H]; now apply H
        | destruct H as [H _]; discriminate H
        | inversion H].
    - vm_compute. discriminate. }
  split; [exact H|].
  destruct (exit_status_of_cut no_file (bytes "a:b" ++ [LF])
              [opt "d" ":"; opt "f" "1,7"] []) as [_ [_ Hok]].
  exact (Hok H eq_refl).
Defined.

(** ** The options in effect *)

Lemma option_step_effect (o o' : options) (ev : Z * list ascii) :
  option_step o ev = inr o' ->
  delimiter o' = (if fst ev =? chr "d" then snd ev else delimiter o) /\
  suppress_no_delim o' = suppress_no_delim o || (fst ev =? chr "s") /\
  line_delim o' = (if fst ev =? chr "z" then NUL else line_delim o).
Proof.
  destruct ev as [opt arg]. unfold option_step. cbn [fst snd].
  destruct (Z.eqb_spec opt (chr "b")) as [->|_]; cbn [orb].
  { destruct (negb (mode o =? 0)); [discriminate|]. intros [= <-].
    cbn. now rewrite orb_false_r. }
  destruct (Z.eqb_spec opt (chr "c")) as [->|_]; cbn [orb].
  { destruct (negb (mode o =? 0)); [discriminate|]. intros [= <-].
    cbn. now rewrite orb_false_r. }
  destruct (Z.eqb_spec opt (chr "d")) as [->|_].
  { destruct (negb (strlen arg =? 1)); [discriminate|]. intros [= <-].
    cbn. now rewrite orb_false_r. }
  destruct (Z.eqb_spec opt (chr "f")) as [->|_].
  { destruct (negb (mode o =? 0)); [discriminate|]. intros [= <-].
    cbn. now rewrite orb_false_r. }
  destruct (Z.eqb_spec opt (chr "s")) as [->|_].
  { intros [= <-]. cbn. now rewrite orb_true_r. }
  destruct (Z.eqb_spec opt (chr "z")) as [->|_]; [|discriminate].
  intros [= <-]. cbn. now rewrite orb_false_r.
Qed.

Lemma option_loop_effect (evs : list (Z * list ascii)) :
  forall o o',
    option_loop evs o = inr o' ->
    delimiter o' = last_delimiter evs (delimiter o) /\
    suppress_no_delim o'
    = suppress_no_delim o || existsb (fun ev => fst ev =? chr "s") evs /\
    line_delim o'
    = (if existsb (fun ev => fst ev =? chr "z") evs then NUL
       else line_delim o).
Proof.
  induction evs as [|ev rest IH]; intros o o'; cbn [option_loop].
  - intros [= <-]. cbn. now rewrite orb_false_r.
  - destruct (option_step o ev) as [d|o1] eqn:Hstep; [discriminate|].
    intros Hloop. destruct (option_step_effect _ _ _ Hstep) as [Hd [Hs Hz]].
    destruct (IH o1 o' Hloop) as [-> [-> ->]].
    unfold last_delimiter. cbn [fold_left existsb]. rewrite Hd, Hs, Hz.
    split; [reflexivity|]. split; [now rewrite orb_assoc|].
    destruct (fst ev =? chr "z"); cbn [orb]; [|reflexivity].
    now destruct (existsb (fun ev0 => fst ev0 =? chr "z") rest).
Qed.

(** X17.  The options in effect when the option loop ends without a
    diagnostic: the delimiter is the argument of the last [-d], TAB when
    there is none; suppression is set exactly when there is a [-s]; the
    terminator is the NUL byte when there is a [-z], the newline
    otherwise; the selector list is the argument of the list option. *)
Theorem options_in_effect (evs : list (Z * list ascii)) (o : options) :
  option_loop evs initial_options = inr o ->
  delimiter o = last_delimiter evs [TAB] /\
  suppress_no_delim o = existsb (fun ev => fst ev =? chr "s") evs /\
  line_delim o
  = (if existsb (fun ev => fst ev =? chr "z") evs then NUL else LF) /\
  range_list o = list_argument evs.
Proof.
  intros Hloop.
  destruct (option_loop_effect _ _ _ Hloop) as [Hd [Hs Hz]].
  destruct (option_loop_known _ _ _ Hloop eq_refl) as [_ Hr].
  split; [exact Hd|]. split; [exact Hs|]. split; [exact Hz|].
  rewrite Hr. destruct (existsb is_list_option evs) eqn:E; [reflexivity|].
  clear - E. induction evs as [|ev rest IH]; [reflexivity|].
  cbn in *. destruct (is_list_option ev); [discriminate | now apply IH].
Qed.

Lemma options_in_effect_witness :
  option_loop [opt "d" ","; opt "s" ""; opt "f" "2"; opt "d" ":"]
              initial_options
  = inr {| mode := chr "f"; range_list := bytes "2"; delimiter := bytes ":";
           suppress_no_delim := true; line_delim := LF |} /\
  bytes ":" = last_delimiter
                [opt "d" ","; opt "s" ""; opt "f" "2"; opt "d" ":"] [TAB] /\
  true = existsb (fun ev => fst ev =? chr "s")
                 [opt "d" ","; opt "s" ""; opt "f" "2"; opt "d" ":"] /\
  LF = (if existsb (fun ev => fst ev =? chr "z")
                   [opt "d" ","; opt "s" ""; opt "f" "2"; opt "d" ":"]
        then NUL else LF) /\
  bytes "2" = list_argument
                [opt "d" ","; opt "s" ""; opt "f" "2"; opt "d" ":"].
Proof.
  assert (H : option_loop [opt "d" ","; opt "s" ""; opt "f" "2"; opt "d" ":"]
                          initial_options
              = inr {| mode := chr "f"; range_list := bytes "2";
                       delimiter := bytes ":";
                       suppress_no_delim := true; line_delim := LF |})
    by reflexivity.
  split; [exact H|].
  exact (options_in_effect _ _ H).
Defined.

(** ** Prefixes, suffixes and single units *)

Section Units.

Context {A : Type}.

Lemma in_range_single (lo hi p : Z) :
  in_range [{| start := lo; end_ := hi |}] p = (lo <=? p) && (p <=? hi).
Proof. cbn. now destruct ((lo <=? p) && (p <=? hi)). Qed.

Lemma selected_beyond (hi : Z) (units : list A) :
  forall lo pos,
    hi < pos ->
    map snd (filter (fun pu => in_range [{| start := lo; end_ := hi |}] (fst pu))
                    (number_from pos units))
    = [].
Proof.
  induction units as [|u rest IH]; intros lo pos Hpos; [reflexivity|].
  cbn [number_from filter fst]. rewrite in_range_single.
  replace (pos <=? hi) with false by (symmetry; apply Z.leb_gt; lia).
  rewrite andb_false_r. apply IH. lia.
Qed.

Lemma selected_prefix (m : Z) (units : list A) :
  forall pos,
    1 <= pos ->
    map snd (filter (fun pu => in_range [{| start := 1; end_ := m |}] (fst pu))
                    (number_from pos units))
    = firstn (Z.to_nat (m - pos + 1)) units.
Proof.
  induction units as [|u rest IH]; intros pos Hpos;
    [now rewrite firstn_nil|].
  cbn [number_from filter fst]. rewrite in_range_single.
  replace (1 <=? pos) with true by (symmetry; apply Z.leb_le; lia).
  cbn [andb]. destruct (Z.leb_spec pos m).
  - replace (Z.to_nat (m - pos + 1)) with (S (Z.to_nat (m - (pos + 1) + 1)))
      by lia.
    cbn [map snd firstn]. f_equal. apply IH. lia.
  - rewrite selected_beyond by lia.
    replace (Z.to_nat (m - pos + 1)) with 0%nat by lia. reflexivity.
Qed.

Lemma selected_suffix (n : Z) (units : list A) :
  forall pos,
    1 <= pos ->
    pos + Z.of_nat (length units) <= INT_MAX + 1 ->
    map snd (filter (fun pu => in_range [{| start := n; end_ := INT_MAX |}]
                                        (fst pu))
                    (number_from pos units))
    = skipn (Z.to_nat (n - pos)) units.
Proof.
  induction units as [|u rest IH]; intros pos Hpos Hhi;
    [now rewrite skipn_nil|].
  cbn [length] in Hhi. rewrite Nat2Z.inj_succ in Hhi.
  cbn [number_from filter fst]. rewrite in_range_single.
  replace (pos <=? INT_MAX) with true by (symmetry; apply Z.leb_le; lia).
  rewrite andb_true_r. destruct (Z.leb_spec n pos).
  - replace (Z.to_nat (n - pos)) with 0%nat by lia.
    cbn [map snd skipn]. f_equal. rewrite IH by lia.
    replace (Z.to_nat (n - (pos + 1))) with 0%nat by lia. reflexivity.
  - replace (Z.to_nat (n - pos)) with (S (Z.to_nat (n - (pos + 1)))) by lia.
    cbn [skipn]. apply IH; lia.
Qed.

Lemma selected_single (n : Z) (units : list A) :
  forall pos,
    pos <= n ->
    map snd (filter (fun pu => in_range [{| start := n; end_ := n |}] (fst pu))
                    (number_from pos units))
    = match nth_error units (Z.to_nat (n - pos)) with
      | Some u => [u]
      | None => []
      end.
Proof.
  induction units as [|u rest IH]; intros pos Hpos.
  - now destruct (Z.to_nat (n - pos)).
  - cbn [number_from filter fst]. rewrite in_range_single.
    destruct (Z.eq_dec pos n) as [->|Hne].
    + rewrite !Z.leb_refl. cbn [andb map snd].
      rewrite selected_beyond by lia.
      replace (Z.to_nat (n - n)) with 0%nat by lia. reflexivity.
    + replace (n <=? pos) with false by (symmetry; apply Z.leb_gt; lia).
      cbn [andb]. rewrite IH by lia.
      replace (Z.to_nat (n - pos)) with (S (Z.to_nat (n - (pos + 1)))) by lia.
      reflexivity.
Qed.

End Units.

Lemma visible_length (line : list ascii) :
  (length (visible line) <= length line)%nat.
Proof.
  induction line as [|c rest IH]; simpl; [lia|].
  destruct ((c =? LF)%char || (c =? NUL)%char); simpl; lia.
Qed.

Lemma parse_ranges_single_token (t : selector_token) :
  fits_int t -> parse_ranges (render t) = [stored (denotes t)].
Proof.
  intros Hfit. change (render t) with (selector [t]).
  rewrite parse_ranges_selector; [reflexivity | now constructor].
Qed.

(** X18.  Prefix and suffix in byte mode.  For a line without NUL byte
    (of at most [INT_MAX] bytes) the selector [-M] writes the first M
    bytes of the line, the whole line when it is shorter, and the selector
    [N-] with N = M + 1 writes the line without its first M bytes, nothing
    when it is shorter: the two bodies put together are the line. *)
Theorem byte_mode_prefix_and_suffix
  (m : N) (line_delim : ascii) (line : list ascii) :
  is_line line ->
  ~ In NUL line ->
  Z.of_nat (length line) <= INT_MAX ->
  Z.of_N m < INT_MAX ->
  cut_bytes_line (parse_ranges ("-" :: decimal m)) line_delim line
  = firstn (N.to_nat m) (chomp line) ++ [line_delim] /\
  cut_bytes_line (parse_ranges (decimal (m + 1) ++ ["-"])) line_delim line
  = skipn (N.to_nat m) (chomp line) ++ [line_delim].
Proof.
  intros Hline Hnul Hlen Hm.
  pose proof (visible_length line) as Hv.
  split; unfold cut_bytes_line; f_equal.
  - change ("-" :: decimal m) with (render (UpTo m)).
    rewrite (parse_ranges_single_token (UpTo m)) by (cbn; lia).
    rewrite cut_bytes_scan_selected by lia.
    unfold stored, denotes; cbn [fst snd]. rewrite selected_prefix by lia.
    rewrite visible_line by assumption. f_equal. lia.
  - change (decimal (m + 1) ++ ["-"]) with (render (From (m + 1))).
    rewrite (parse_ranges_single_token (From (m + 1))) by (cbn; lia).
    rewrite cut_bytes_scan_selected by lia.
    unfold stored, denotes; cbn [fst snd]. rewrite selected_suffix by lia.
    rewrite visible_line by assumption. f_equal. lia.
Qed.

Lemma byte_mode_prefix_and_suffix_witness :
  is_line (bytes "abcdef" ++ [LF]) /\
  ~ In NUL (bytes "abcdef" ++ [LF]) /\
  Z.of_nat (length (bytes "abcdef" ++ [LF])) <= INT_MAX /\
  Z.of_N 2 < INT_MAX /\
  cut_bytes_line (parse_ranges ("-" :: decimal 2)) LF (bytes "abcdef" ++ [LF])
  = bytes "ab" ++ [LF] /\
  cut_bytes_line (parse_ranges (decimal (2 + 1) ++ ["-"])) LF
                 (bytes "abcdef" ++ [LF])
  = bytes "cdef" ++ [LF].
Proof.
  assert (H1 : is_line (bytes "abcdef" ++ [LF])).
  { exists (bytes "abcdef"). split; [|now left].
    simpl. intros H. repeat (destruct H as [H|H]; [discriminate H|]). exact H. }
  assert (H2 : ~ In NUL (bytes "abcdef" ++ [LF])).
  { simpl. intros H. repeat (destruct H as [H|H]; [discriminate H|]). exact H. }
  assert (H3 : Z.of_nat (length (bytes "abcdef" ++ [LF])) <= INT_MAX).
  { vm_compute. discriminate. }
  assert (H4 : Z.of_N 2 < INT_MAX) by reflexivity.
  split; [exact H1 | split; [exact H2 | split; [exact H3 | split; [exact H4|]]]].
  exact (byte_mode_prefix_and_suffix 2 LF (bytes "abcdef" ++ [LF]) H1 H2 H3 H4).
Defined.

(** X19.  One field.  For a line that holds the delimiter before any NUL
    byte, the selector [N], N from 1 on, writes the N-th of the fields the
    loop numbers and the terminator, and nothing at all when the line has
    fewer than N fields. *)
Theorem field_mode_single_field
  (n : N) (d : ascii) (suppress : bool) (line_delim : ascii)
  (line : list ascii) :
  (1 <= n)%N ->
  Z.of_N n <= INT_MAX ->
  d <> NUL ->
  In d (cstr (chomp line)) ->
  Z.of_nat (length (fields d line)) <= INT_MAX ->
  cut_fields_line (parse_ranges (decimal n)) [d] suppress line_delim line
  = match nth_error (fields d line) (N.to_nat n - 1) with
    | Some f => f ++ [line_delim]
    | None => []
    end.
Proof.
  intros Hn Hmax Hd Hin Hlen.
  rewrite cut_fields_line_selected by assumption.
  change (decimal n) with (render (Single n)).
  rewrite (parse_ranges_single_token (Single n)) by exact Hmax.
  unfold selected. unfold stored, denotes; cbn [fst snd].
  rewrite selected_single by lia.
  replace (Z.to_nat (Z.of_N n - 1)) with (N.to_nat n - 1)%nat by lia.
  destruct (nth_error (fields d line) (N.to_nat n - 1)); reflexivity.
Qed.

Lemma field_mode_single_field_witness :
  (1 <= 2)%N /\ Z.of_N 2 <= INT_MAX /\ ":" <> NUL /\
  In ":" (cstr (chomp (bytes "root:x:0" ++ [LF]))) /\
  Z.of_nat (length (fields ":" (bytes "root:x:0" ++ [LF]))) <= INT_MAX /\
  cut_fields_line (parse_ranges (decimal 2)) [":"] false LF
                  (bytes "root:x:0" ++ [LF])
  = bytes "x" ++ [LF].
Proof.
  assert (H1 : (1 <= 2)%N) by (vm_compute; discriminate).
  assert (H2 : Z.of_N 2 <= INT_MAX) by (vm_compute; discriminate).
  assert (H3 : ":" <> NUL) by discriminate.
  assert (H4 : In ":" (cstr (chomp (bytes "root:x:0" ++ [LF])))).
  { vm_compute. tauto. }
  assert (H5 : Z.of_nat (length (fields ":" (bytes "root:x:0" ++ [LF])))
               <= INT_MAX).
  { vm_compute. discriminate. }
  split; [exact H1 | split; [exact H2 | split; [exact H3 | split;
    [exact H4 | split; [exact H5|]]]]].
  exact (field_mode_single_field 2 ":" false LF (bytes "root:x:0" ++ [LF])
           H1 H2 H3 H4 H5).
Defined.
